(** * Prime factorization app (src/App.tsx): factorizer, grouping, history

    The file embeds the computational core of [App.tsx]:

    - [primeFactorize] (lines 6-34), trial division on JavaScript numbers;
    - [groupFactors] (lines 37-57), run-length grouping of a factor list;
    - the handlers of the component that touch the calculation history:
      [handleFactorize] (86-124), [removeFromHistory] (127-129),
      [recalculate] (132-139), [clearInput] (142-145), [toggleDarkMode]
      (81-83) and the [onInput] handler of the text field;
    - what the component renders from that state (195-245): the conditions
      of the error, result and history panels, the grouped line of the
      result panel, and the rows of the history with their buttons, from
      which sessions of user actions are built.

    JavaScript numbers are IEEE 754 binary64 values.  [primeFactorize] is
    written once, over an interface of the numeric operations it uses
    ([JsNumber]), and instantiated twice: at [spec_float] with the binary64
    operations of the Standard Library's [SpecFloat] (what an engine
    executes), and at [Z] with exact integer arithmetic, where only
    [Math.sqrt] keeps its binary64 meaning.  The two instances are proved to
    compute the same thing on the whole input domain, after which the
    remaining development works with integers.

    What is assumed of the platform: numbers are binary64, [Math.sqrt] is
    correctly rounded, [%] is the exact remainder, and the store setter
    replaces the stored list by the result of its updater.

    Loops carry a step budget ([fuel]); that the budget suffices is part
    of what is proved, never assumed. *)

From Stdlib Require Import ZArith List Lia Bool String Ascii Sorted.
From Stdlib Require Import Floats.SpecFloat.
From Stdlib Require Import Permutation.
From Stdlib Require DecimalString DecimalPos.
Import ListNotations.
Local Open Scope Z_scope.

(** ** Part I. Definitions *)

(** *** Binary64 operations on JavaScript numbers *)

Module Binary64.

Definition prec : Z := 53.
Definition emax : Z := 1024.

(** A JavaScript number. *)
Definition number : Type := spec_float.

(** The number denoted by an integer literal, or more generally the
    binary64 value nearest to an integer. *)
Definition of_int (z : Z) : number := binary_normalize prec emax z 0 false.

(** [Math.sqrt], correctly rounded as IEEE 754 prescribes (and as
    engines implement it). *)
Definition Math_sqrt (x : number) : number := SFsqrt prec emax x.

Definition add (x y : number) : number := SFadd prec emax x y.
Definition div (x y : number) : number := SFdiv prec emax x y.
Definition ltb (x y : number) : bool := SFltb x y.
Definition leb (x y : number) : bool := SFleb x y.

(** [x === y] on numbers. *)
Definition eqb (x y : number) : bool := SFeqb x y.

(** [x % y]: the remainder of the truncating division, exact, with the
    sign of the dividend (ECMAScript Number::remainder). *)
Definition rem (x y : number) : number :=
  match x, y with
  | S754_nan, _ | _, S754_nan => S754_nan
  | S754_infinity _, _ => S754_nan
  | _, S754_zero _ => S754_nan
  | S754_zero _, _ => x
  | S754_finite _ _ _, S754_infinity _ => x
  | S754_finite sx mx ex, S754_finite _ my ey =>
      let e := Z.min ex ey in
      let a := Z.pos (fst (shl_align mx ex e)) in
      let b := Z.pos (fst (shl_align my ey e)) in
      binary_normalize prec emax (cond_Zopp sx (a mod b)) e sx
  end.

(** The loop test [i <= Math.sqrt(n)] of line 21, on integer operands. *)
Definition sqrt_guard (i n : Z) : bool :=
  leb (of_int i) (Math_sqrt (of_int n)).

End Binary64.

(** *** The numeric operations used by [primeFactorize] *)

Class JsNumber (num : Type) : Type := {
  lit : Z -> num;                  (* an integer literal *)
  num_lt : num -> num -> bool;     (* x < y *)
  num_eq : num -> num -> bool;     (* x === y *)
  num_rem : num -> num -> num;     (* x % y *)
  num_div : num -> num -> num;     (* x / y *)
  num_add : num -> num -> num;     (* x + y *)
  le_sqrt : num -> num -> bool     (* x <= Math.sqrt(y) *)
}.

(** What the engine executes. *)
#[export] Instance binary64 : JsNumber Binary64.number := {
  lit := Binary64.of_int;
  num_lt := Binary64.ltb;
  num_eq := Binary64.eqb;
  num_rem := Binary64.rem;
  num_div := Binary64.div;
  num_add := Binary64.add;
  le_sqrt := fun i n => Binary64.leb i (Binary64.Math_sqrt n)
}.

(** Exact integers.  [/] is only ever applied after the test [n % d === 0]
    succeeded, where the quotient is an integer; [Math.sqrt] is still the
    binary64 square root of the (exactly represented) operand. *)
#[export] Instance exact_integer : JsNumber Z := {
  lit := fun z => z;
  num_lt := Z.ltb;
  num_eq := Z.eqb;
  num_rem := Z.rem;
  num_div := Z.div;
  num_add := Z.add;
  le_sqrt := Binary64.sqrt_guard
}.

(** [Number.MAX_SAFE_INTEGER], 2^53 - 1. *)
Definition MAX_SAFE_INTEGER : Z := 9007199254740991.

(** *** [primeFactorize] *)

(** Loops are modelled with a step budget: [None] means that the budget
    ran out before the loop ended. *)
Definition bind {A B : Type} (c : option A) (k : A -> option B) : option B :=
  match c with
  | Some a => k a
  | None => None
  end.

Notation "x <- c ;; k" := (bind c (fun x => k))
  (at level 61, c at next level, right associativity).
Notation "' p <- c ;; k" := (bind c (fun p => k))
  (at level 61, p pattern, c at next level, right associativity).

Section Factorizer.

Context {num : Type} `{JsNumber num}.

(** [while (n % d === 0) { factors.push(d); n = n / d; }]
    (lines 15-18 with [d = 2], lines 22-25 with [d = i]). *)
Fixpoint while_divisible (fuel : nat) (d n : num) (factors : list num)
  : option (num * list num) :=
  match fuel with
  | O => None
  | S fuel' =>
      if num_eq (num_rem n d) (lit 0)
      then while_divisible fuel' d (num_div n d) (factors ++ [d])
      else Some (n, factors)
  end.

(** [for (let i = 3; i <= Math.sqrt(n); i += 2) { while ... }]
    (lines 21-26), entered at the test with the current [i]. *)
Fixpoint for_odd (fuel : nat) (i n : num) (factors : list num)
  : option (num * list num) :=
  match fuel with
  | O => None
  | S fuel' =>
      if le_sqrt i n
      then '(n', factors') <- while_divisible (S fuel') i n factors ;;
           for_odd fuel' (num_add i (lit 2)) n' factors'
      else Some (n, factors)
  end.

(** Lines 6-34. *)
Definition primeFactorize_fuel (fuel : nat) (x : num) : option (list num) :=
  if num_lt x (lit 2) then Some []
  else if num_lt (lit MAX_SAFE_INTEGER) x then Some []
  else
    '(n, factors) <- while_divisible fuel (lit 2) x [] ;;
    '(n, factors) <- for_odd fuel (lit 3) n factors ;;
    Some (if num_lt (lit 1) n then factors ++ [n] else factors).

(** The loop tests of the function body. *)
Inductive test : Type :=
| While2     (* line 15: [n % 2 === 0] *)
| ForTest    (* line 21: [i <= Math.sqrt(n)] *)
| WhileI.    (* line 22: [n % i === 0] *)

(** [reaches x t n d]: started on [x], control arrives at the test [t]
    with the current value [n] and the divisor [d] ([2] or [i]). *)
Inductive reaches (x : num) : test -> num -> num -> Prop :=
| reach_entry :
    num_lt x (lit 2) = false -> num_lt (lit MAX_SAFE_INTEGER) x = false ->
    reaches x While2 x (lit 2)
| reach_halve n :
    reaches x While2 n (lit 2) ->
    num_eq (num_rem n (lit 2)) (lit 0) = true ->
    reaches x While2 (num_div n (lit 2)) (lit 2)
| reach_for n :
    reaches x While2 n (lit 2) ->
    num_eq (num_rem n (lit 2)) (lit 0) = false ->
    reaches x ForTest n (lit 3)
| reach_body n i :
    reaches x ForTest n i -> le_sqrt i n = true ->
    reaches x WhileI n i
| reach_divide n i :
    reaches x WhileI n i ->
    num_eq (num_rem n i) (lit 0) = true ->
    reaches x WhileI (num_div n i) i
| reach_next n i :
    reaches x WhileI n i ->
    num_eq (num_rem n i) (lit 0) = false ->
    reaches x ForTest n (num_add i (lit 2)).

End Factorizer.

(** A budget that is enough for every input in the domain. *)
Definition fuel_for (x : Z) : nat := Z.to_nat (Z.sqrt x + Z.log2 x + 2).

(** [primeFactorize] on integers. *)
Definition primeFactorize (x : Z) : option (list Z) :=
  primeFactorize_fuel (fuel_for x) x.

(** [primeFactorize] as executed on binary64 numbers. *)
Definition primeFactorize_f64 (fuel : nat) (x : Binary64.number)
  : option (list Binary64.number) :=
  primeFactorize_fuel fuel x.

Definition product (l : list Z) : Z := fold_right Z.mul 1 l.

(** *** The algorithm as the specification words it *)

Module Spec.

(** "repeatedly divide out the factor d while divisible, appending d to
    the result for each division": the occurrences of [d] and the
    remaining value. *)
Fixpoint divide_out (fuel : nat) (d n : Z) : option (list Z * Z) :=
  match fuel with
  | O => None
  | S fuel' =>
      if n mod d =? 0
      then '(ds, r) <- divide_out fuel' d (n / d) ;; Some (d :: ds, r)
      else Some ([], n)
  end.

(** "test odd candidate divisors d starting at 3, incrementing by 2,
    while d*d <= remaining value, dividing out each occurrence of d
    before advancing d; finally, if the remaining value after the loop
    exceeds 1, it is itself prime and is appended once". *)
Fixpoint odd_candidates (fuel : nat) (d n : Z) : option (list Z) :=
  match fuel with
  | O => None
  | S fuel' =>
      if d * d <=? n
      then '(ds, r) <- divide_out (S fuel') d n ;;
           rest <- odd_candidates fuel' (d + 2) r ;;
           Some (ds ++ rest)
      else Some (if 1 <? n then [n] else [])
  end.

Definition factorize (n : Z) : option (list Z) :=
  if (n <? 2) || (MAX_SAFE_INTEGER <? n) then Some []
  else
    '(twos, r) <- divide_out (fuel_for n) 2 n ;;
    rest <- odd_candidates (fuel_for n) 3 r ;;
    Some (twos ++ rest).

End Spec.

(** *** Vocabulary of the proofs about [primeFactorize] *)

(** No divisor of [n] lies strictly between 1 and [i]. *)
Definition no_small_divisor (i n : Z) : Prop :=
  forall d, 1 < d < i -> ~ (d | n).

(** The state of the [for] loop at its test. *)
Definition trial_inv (i n : Z) : Prop :=
  1 <= n < 2 ^ 53 /\ 3 <= i <= 2 ^ 27 /\ Z.odd i = true /\ no_small_divisor i n.

(** What holds of the current value [n] and divisor [d] at each test, on
    exact integers, for the input [x]. *)
Definition test_inv (x : Z) (t : test) (n d : Z) : Prop :=
  1 <= n <= x /\
  match t with
  | While2 => d = 2
  | ForTest => trial_inv d n
  | WhileI => 3 <= d /\ d * d <= x + 1 /\ Z.odd d = true /\ no_small_divisor d n
  end.

(** The image of an exact integer loop state among binary64 numbers. *)
Definition lift (r : Z * list Z) : Binary64.number * list Binary64.number :=
  (Binary64.of_int (fst r), map Binary64.of_int (snd r)).

(** *** [groupFactors] (lines 37-57) *)

Record Group : Type := { prime : Z; exponent : Z }.

(** The loop state: [grouped], [currentPrime], [exponent]. *)
Definition group_state : Type := (list Group * Z * Z)%type.

(** One iteration of the loop of lines 45-53, at index [i]. *)
Definition group_step (factors : list Z) (st : group_state) (i : nat)
  : group_state :=
  let '(grouped, currentPrime, exponent) := st in
  let fi := nth i factors 0 in
  if fi =? currentPrime
  then (grouped, currentPrime, exponent + 1)
  else (grouped ++ [{| prime := currentPrime; exponent := exponent |}], fi, 1).

Definition groupFactors (factors : list Z) : list Group :=
  match factors with
  | [] => []
  | f0 :: _ =>
      let '(grouped, currentPrime, exponent) :=
        fold_left (group_step factors)
                  (seq 1 (List.length factors - 1)%nat) ([], f0, 1) in
      grouped ++ [{| prime := currentPrime; exponent := exponent |}]
  end.

(** The loop body on the element itself rather than on its index. *)
Definition group_elem (st : group_state) (x : Z) : group_state :=
  let '(grouped, currentPrime, exponent) := st in
  if x =? currentPrime
  then (grouped, currentPrime, exponent + 1)
  else (grouped ++ [{| prime := currentPrime; exponent := exponent |}], x, 1).

Definition close_group (st : group_state) : list Group :=
  let '(grouped, currentPrime, exponent) := st in
  grouped ++ [{| prime := currentPrime; exponent := exponent |}].

(** Each prime repeated exponent times, concatenated in order. *)
Definition expand (grouped : list Group) : list Z :=
  flat_map (fun g => repeat (prime g) (Z.to_nat (exponent g))) grouped.

(** *** The display string (lines 119-121) *)

(** [`${x}`] and [x.toString()] for an integer [x]: its decimal digits
    (JavaScript prints every digit of an integer below 10^21). *)
Definition number_to_string (x : Z) : string :=
  DecimalString.NilZero.string_of_int (Z.to_int x).

(** [({ prime, exponent }) => exponent > 1 ? `${prime}^${exponent}` : `${prime}`] *)
Definition render_group (g : Group) : string :=
  if 1 <? exponent g
  then (number_to_string (prime g) ++ "^" ++ number_to_string (exponent g))%string
  else number_to_string (prime g).

(** [groupedResult.map(...).join(' × ')]; [String.concat] is [join]. *)
Definition formatFactorization (grouped : list Group) : string :=
  String.concat " × " (map render_group grouped).

(** The rendering of one group as the specification words it. *)
Definition spec_render_group (g : Group) : string :=
  if exponent g =? 1
  then number_to_string (prime g)
  else (number_to_string (prime g) ++ "^" ++ number_to_string (exponent g))%string.

(** The display string as the specification words it. *)
Fixpoint spec_format (grouped : list Group) : string :=
  match grouped with
  | [] => ""
  | [g] => spec_render_group g
  | g :: rest => (spec_render_group g ++ " × " ++ spec_format rest)%string
  end.

(** *** The component state and its handlers (lines 60-145) *)

(** The result of [parseInt]: [NaN] or an integer. *)
Inductive parsed : Type :=
| NaN
| Num (z : Z).

Record HistoryRecord : Type := { number : Z; factorization : string }.

Record AppState : Type := {
  inputValue : string;
  currentNumber : option parsed;        (* number | null *)
  factors : list Z;
  groupedFactors : list Group;
  error : option string;                (* string | null *)
  calculationHistory : list HistoryRecord;
  darkMode : bool
}.

(** The state created by the [createSignal] and [createStore] calls of
    lines 61-69; the colour scheme comes from the environment. *)
Definition initialState (prefersDark : bool) : AppState :=
  {| inputValue := "";
     currentNumber := None;
     factors := [];
     groupedFactors := [];
     error := None;
     calculationHistory := [];
     darkMode := prefersDark |}.

(** [prev.filter((x, i) => keep(x, i))]. *)
Definition filter_index {A : Type} (keep : A -> nat -> bool) (l : list A)
  : list A :=
  map fst (filter (fun p => keep (fst p) (snd p))
                  (combine l (seq 0 (List.length l)))).

(** The updater of line 123: [prev => [...prev, { number, factorization }]]. *)
Definition history_append (n : Z) (s : string) (prev : list HistoryRecord)
  : list HistoryRecord :=
  prev ++ [{| number := n; factorization := s |}].

(** The updater of line 128: [prev => prev.filter((_, i) => i !== index)]. *)
Definition history_remove (index : Z) (prev : list HistoryRecord)
  : list HistoryRecord :=
  filter_index (fun _ i => negb (Z.of_nat i =? index)) prev.

(** Setters replace one component of the state. *)
Definition setInputValue (v : string) (s : AppState) : AppState :=
  {| inputValue := v;
     currentNumber := currentNumber s;
     factors := factors s;
     groupedFactors := groupedFactors s;
     error := error s;
     calculationHistory := calculationHistory s;
     darkMode := darkMode s |}.

Definition setCurrentNumber (v : option parsed) (s : AppState) : AppState :=
  {| inputValue := inputValue s;
     currentNumber := v;
     factors := factors s;
     groupedFactors := groupedFactors s;
     error := error s;
     calculationHistory := calculationHistory s;
     darkMode := darkMode s |}.

Definition setFactors (v : list Z) (s : AppState) : AppState :=
  {| inputValue := inputValue s;
     currentNumber := currentNumber s;
     factors := v;
     groupedFactors := groupedFactors s;
     error := error s;
     calculationHistory := calculationHistory s;
     darkMode := darkMode s |}.

Definition setGroupedFactors (v : list Group) (s : AppState) : AppState :=
  {| inputValue := inputValue s;
     currentNumber := currentNumber s;
     factors := factors s;
     groupedFactors := v;
     error := error s;
     calculationHistory := calculationHistory s;
     darkMode := darkMode s |}.

Definition setError (v : option string) (s : AppState) : AppState :=
  {| inputValue := inputValue s;
     currentNumber := currentNumber s;
     factors := factors s;
     groupedFactors := groupedFactors s;
     error := v;
     calculationHistory := calculationHistory s;
     darkMode := darkMode s |}.

(** The store setter applied to an updater function. *)
Definition setCalculationHistory
  (f : list HistoryRecord -> list HistoryRecord) (s : AppState) : AppState :=
  {| inputValue := inputValue s;
     currentNumber := currentNumber s;
     factors := factors s;
     groupedFactors := groupedFactors s;
     error := error s;
     calculationHistory := f (calculationHistory s);
     darkMode := darkMode s |}.

Definition setDarkMode (v : bool) (s : AppState) : AppState :=
  {| inputValue := inputValue s;
     currentNumber := currentNumber s;
     factors := factors s;
     groupedFactors := groupedFactors s;
     error := error s;
     calculationHistory := calculationHistory s;
     darkMode := v |}.

(** The early-return branches of [handleFactorize] (lines 90-109). *)
Definition reject (message : string) (s : AppState) : AppState :=
  setGroupedFactors [] (setFactors [] (setError (Some message) s)).

Section Handlers.

(** [parseInt(text, 10)], a built-in of the platform. *)
Variable parseInt : string -> parsed.

(** Lines 86-124.  [None]: the factorization did not return. *)
Definition handleFactorize (s : AppState) : option AppState :=
  let num := parseInt (inputValue s) in
  let s := setCurrentNumber (Some num) s in
  match num with
  | NaN => Some (reject "有効な数値を入力してください" s)
  | Num n =>
      if n <? 2 then Some (reject "2以上の整数を入力してください" s)
      else if MAX_SAFE_INTEGER <? n then Some (reject "数値が大きすぎます" s)
      else
        let s := setError None s in
        factorsResult <- primeFactorize n ;;
        let s := setFactors factorsResult s in
        let groupedResult := groupFactors factorsResult in
        let s := setGroupedFactors groupedResult s in
        let factorizationString := formatFactorization groupedResult in
        Some (setCalculationHistory (history_append n factorizationString) s)
  end.

(** Lines 127-129. *)
Definition removeFromHistory (index : Z) (s : AppState) : AppState :=
  setCalculationHistory (history_remove index) s.

(** Lines 132-139. *)
Definition recalculate (n : Z) (s : AppState) : option AppState :=
  let s := setInputValue (number_to_string n) s in
  let s := setCurrentNumber (Some (Num n)) s in
  factorsResult <- primeFactorize n ;;
  let s := setFactors factorsResult s in
  let s := setGroupedFactors (groupFactors factorsResult) s in
  Some (setError None s).

(** Lines 142-145. *)
Definition clearInput (s : AppState) : AppState :=
  setError None (setInputValue "" s).

(** Lines 81-83. *)
Definition toggleDarkMode (s : AppState) : AppState :=
  setDarkMode (negb (darkMode s)) s.

(** The events the rendered component reacts to. *)
Inductive event : Type :=
| Input (text : string)            (* onInput of the text field *)
| ClickFactorize                   (* the "calculate" button *)
| ClickClear                       (* the "clear" button *)
| ClickToggleDarkMode
| ColorSchemeChanged (dark : bool) (* the media query listener *)
| ClickHistoryItem (n : Z)         (* recalculate(item.number) *)
| ClickRemove (index : Z).         (* removeFromHistory(index()) *)

Definition handle (e : event) (s : AppState) : option AppState :=
  match e with
  | Input text => Some (setInputValue text s)
  | ClickFactorize => handleFactorize s
  | ClickClear => Some (clearInput s)
  | ClickToggleDarkMode => Some (toggleDarkMode s)
  | ColorSchemeChanged dark => Some (setDarkMode dark s)
  | ClickHistoryItem n => recalculate n s
  | ClickRemove index => Some (removeFromHistory index s)
  end.

End Handlers.

(** [parseInt(text, 10)] on ASCII text: white space is skipped, then an
    optional sign, then the longest run of decimal digits is read; [NaN]
    when there is no digit.  The value is the integer denoted; the Number
    that [parseInt] returns rounds it once it exceeds 2^53, which the
    handlers cannot observe: they only compare it with
    [MAX_SAFE_INTEGER]. *)
Definition is_space (c : ascii) : bool :=
  let k := nat_of_ascii c in
  ((k =? 32) || ((9 <=? k) && (k <=? 13)))%nat.

Fixpoint skip_space (s : string) : string :=
  match s with
  | EmptyString => s
  | String c rest => if is_space c then skip_space rest else s
  end.

Fixpoint digits_value (acc : option Z) (s : string) : option Z :=
  match s with
  | EmptyString => acc
  | String c rest =>
      let k := Z.of_nat (nat_of_ascii c) - 48 in
      if (0 <=? k) && (k <=? 9)
      then digits_value
             (Some (10 * match acc with Some a => a | None => 0 end + k)) rest
      else acc
  end.

Definition parseInt_decimal (s : string) : parsed :=
  let '(negative, digits) :=
    match skip_space s with
    | String "-"%char rest => (true, rest)
    | String "+"%char rest => (false, rest)
    | rest => (false, rest)
    end in
  match digits_value None digits with
  | Some z => Num (if negative then - z else z)
  | None => NaN
  end.

(** *** What the component shows (lines 195-245) *)

(** A [string | null] used as a condition: [null] and the empty string
    are falsy. *)
Definition truthy (v : option string) : bool :=
  match v with
  | Some m => negb (m =? "")%string
  | None => false
  end.

(** [<Show when={error()}>] (line 195). *)
Definition showError (s : AppState) : bool := truthy (error s).

(** [<Show when={currentNumber() !== null && factors().length > 0 && !error()}>]
    (line 201). *)
Definition showResult (s : AppState) : bool :=
  match currentNumber s with Some _ => true | None => false end
  && (0 <? List.length (factors s))%nat
  && negb (truthy (error s)).


(** The text of the fragments of lines 211-216: each group followed by
    [' × '] unless it is the last one. *)
Definition groupedFactorsText (grouped : list Group) : string :=
  String.concat ""
    (map (fun p : Group * nat =>
            let '(g, index) := p in
            String.append
              (if 1 <? exponent g
               then (number_to_string (prime g) ++ "^"
                     ++ number_to_string (exponent g))%string
               else number_to_string (prime g))
              (if Z.of_nat index <? Z.of_nat (List.length grouped) - 1
               then " × "%string else ""%string))
         (combine grouped (seq 0 (List.length grouped)))).

(** What the user can do with the rendered component.  A row of the
    history list exists for each record, with its position as [index()]
    (lines 226-244); pressing on a row that is not rendered is not
    possible and changes nothing. *)
Inductive action : Type :=
| TypeText (text : string)
| PressCalculate
| PressClear
| PressToggleDarkMode
| SystemColorScheme (dark : bool)
| PressItem (position : nat)       (* onClick of line 231 *)
| PressRemove (position : nat).    (* onClick of line 236 *)

Definition act (parseInt : string -> parsed) (a : action) (s : AppState)
  : option AppState :=
  match a with
  | TypeText text => handle parseInt (Input text) s
  | PressCalculate => handle parseInt ClickFactorize s
  | PressClear => handle parseInt ClickClear s
  | PressToggleDarkMode => handle parseInt ClickToggleDarkMode s
  | SystemColorScheme dark => handle parseInt (ColorSchemeChanged dark) s
  | PressItem position =>
      match nth_error (calculationHistory s) position with
      | Some item => handle parseInt (ClickHistoryItem (number item)) s
      | None => Some s
      end
  | PressRemove position =>
      if (position <? List.length (calculationHistory s))%nat
      then handle parseInt (ClickRemove (Z.of_nat position)) s
      else Some s
  end.

(** A session: actions in sequence. *)
Fixpoint run (parseInt : string -> parsed) (actions : list action)
  (s : AppState) : option AppState :=
  match actions with
  | [] => Some s
  | a :: rest => s' <- act parseInt a s ;; run parseInt rest s'
  end.

(** A history record as [handleFactorize] makes them: a number of the
    domain with the display string of its factorization. *)
Definition record_ok (r : HistoryRecord) : Prop :=
  2 <= number r <= MAX_SAFE_INTEGER
  /\ exists l : list Z,
       primeFactorize (number r) = Some l
       /\ factorization r = formatFactorization (groupFactors l).

(** What every state of a session satisfies. *)
Definition state_ok (s : AppState) : Prop :=
  groupedFactors s = groupFactors (factors s)
  /\ (error s <> None -> factors s = [])
  /\ (factors s <> [] ->
      exists n : Z,
        currentNumber s = Some (Num n)
        /\ 2 <= n <= MAX_SAFE_INTEGER
        /\ primeFactorize n = Some (factors s))
  /\ Forall record_ok (calculationHistory s).

(** The value of a list of groups: the product of the prime powers. *)
Definition groups_value (grouped : list Group) : Z :=
  fold_right (fun g acc => prime g ^ exponent g * acc) 1 grouped.

(** Neighbouring groups have different primes. *)
Fixpoint runs_maximal (grouped : list Group) : Prop :=
  match grouped with
  | g :: ((g' :: _) as rest) => prime g <> prime g' /\ runs_maximal rest
  | _ => True
  end.

(** The last group, if any, has a prime other than [cur]. *)
Definition last_prime_differs (grouped : list Group) (cur : Z) : Prop :=
  match rev grouped with
  | g :: _ => prime g <> cur
  | [] => True
  end.

(** ** Part II. Properties *)

(** *** Binary64 arithmetic on integers below 2^53

    The operations of [SpecFloat] are followed through their definitions
    for operands that are integers below 2^53: conversion, comparison,
    addition, remainder and exact division return the exact result, and
    the rounded square root is characterised by an integer square root. *)

Module Binary64Facts.

Import Binary64.

(** The model against doubles known from elsewhere: 12 is 1.5 * 2^3; the
    square root of 2 is 0x3FF6A09E667F3BCD; 1/3 is 0x3FD5555555555555;
    the remainder takes the sign of the dividend. *)
Example of_int_12 : of_int 12 = S754_finite false 6755399441055744 (-49).
Proof. reflexivity. Qed.

Example Math_sqrt_2 :
  Math_sqrt (of_int 2) = S754_finite false 6369051672525773 (-52).
Proof. reflexivity. Qed.

Example div_1_3 :
  div (of_int 1) (of_int 3) = S754_finite false 6004799503160661 (-54).
Proof. reflexivity. Qed.

Example rem_signs :
  rem (of_int 17) (of_int 5) = of_int 2
  /\ rem (of_int (-7)) (of_int 2) = of_int (-1)
  /\ rem (of_int 7) (of_int (-2)) = of_int 1
  /\ rem (div (of_int 11) (of_int 2)) (of_int 2) = div (of_int 3) (of_int 2).
Proof. repeat split; reflexivity. Qed.

Lemma digits2_pos_bounds (p : positive) :
  2 ^ (Z.pos (digits2_pos p) - 1) <= Z.pos p < 2 ^ Z.pos (digits2_pos p).
Proof.
  induction p as [p IH | p IH |]; cbn [digits2_pos].
  - rewrite Pos2Z.inj_succ, (Pos2Z.inj_xI p).
    replace (Z.succ (Z.pos (digits2_pos p)) - 1) with (Z.succ (Z.pos (digits2_pos p) - 1)) by lia.
    rewrite !Z.pow_succ_r by lia.
    destruct IH as [IH1 IH2]; revert IH1 IH2.
    generalize (2 ^ (Z.pos (digits2_pos p) - 1)) (2 ^ Z.pos (digits2_pos p)). lia.
  - rewrite Pos2Z.inj_succ, (Pos2Z.inj_xO p).
    replace (Z.succ (Z.pos (digits2_pos p)) - 1) with (Z.succ (Z.pos (digits2_pos p) - 1)) by lia.
    rewrite !Z.pow_succ_r by lia.
    destruct IH as [IH1 IH2]; revert IH1 IH2.
    generalize (2 ^ (Z.pos (digits2_pos p) - 1)) (2 ^ Z.pos (digits2_pos p)). lia.
  - cbn. lia.
Qed.

Lemma digits2_pos_unique (p : positive) (d : Z) :
  2 ^ (d - 1) <= Z.pos p < 2 ^ d -> Z.pos (digits2_pos p) = d.
Proof.
  intros [Hlo Hhi].
  destruct (digits2_pos_bounds p) as [Glo Ghi].
  set (d' := Z.pos (digits2_pos p)) in *.
  assert (0 < d).
  { destruct (Z_lt_le_dec 0 d) as [Hp|Hd]; [assumption|exfalso].
    destruct (Z.eq_dec d 0) as [->|].
    - cbn in Hhi. lia.
    - rewrite Z.pow_neg_r in Hhi by lia. lia. }
  assert (0 < d') by (subst d'; lia).
  destruct (Z.lt_trichotomy d d') as [L | [E | L]]; [| lia |]; exfalso.
  - assert (2 ^ d <= 2 ^ (d' - 1)) by (apply Z.pow_le_mono_r; lia). lia.
  - assert (2 ^ d' <= 2 ^ (d - 1)) by (apply Z.pow_le_mono_r; lia). lia.
Qed.

Lemma iter_xO_mul (d p : positive) :
  Z.pos (Pos.iter xO p d) = Z.pos p * 2 ^ Z.pos d.
Proof.
  revert p. induction d using Pos.peano_ind; intros p.
  - cbn. lia.
  - rewrite Pos.iter_succ, Pos2Z.inj_xO, IHd, Pos2Z.inj_succ, Z.pow_succ_r by lia. lia.
Qed.

Lemma loc_roundtrip (m : Z) (l : location) :
  loc_of_shr_record (shr_record_of_loc m l) = l /\ shr_m (shr_record_of_loc m l) = m.
Proof. destruct l as [|[]]; split; reflexivity. Qed.

Lemma shr_fexp_full (m : positive) (e : Z) (l : location) :
  Z.pos (digits2_pos m) = prec -> emin prec emax <= e ->
  shr_fexp prec emax (Z.pos m) e l = (shr_record_of_loc (Z.pos m) l, e).
Proof.
  intros Hd He. unfold shr_fexp, fexp. cbn [Zdigits2]. rewrite Hd.
  replace (Z.max (prec + e - prec) (emin prec emax) - e) with 0 by lia.
  reflexivity.
Qed.

Lemma binary_round_aux_full (m m' : positive) (e : Z) (l : location) :
  Z.pos (digits2_pos m) = prec -> emin prec emax <= e <= emax - prec ->
  round_nearest_even (Z.pos m) l = Z.pos m' ->
  Z.pos (digits2_pos m') = prec ->
  binary_round_aux prec emax false (Z.pos m) e l = S754_finite false m' e.
Proof.
  intros Hd He Hr Hd'. unfold binary_round_aux.
  rewrite shr_fexp_full by (assumption || lia).
  destruct (loc_roundtrip (Z.pos m) l) as [-> ->]. rewrite Hr.
  rewrite shr_fexp_full by (assumption || lia).
  cbn [shr_record_of_loc shr_m].
  destruct (Z.leb_spec e (emax - prec)); [reflexivity | lia].
Qed.

Lemma of_int_finite (n : Z) :
  0 < n < 2 ^ prec ->
  exists m e, of_int n = S754_finite false m e
    /\ Z.pos (digits2_pos m) = prec
    /\ e = Zdigits2 n - prec
    /\ 1 - prec <= e <= 0
    /\ Z.pos m = n * 2 ^ (- e).
Proof.
  intros [Hlo Hhi]. destruct n as [|p|p]; try lia.
  destruct (digits2_pos_bounds p) as [Dlo Dhi].
  unfold of_int, binary_normalize, binary_round, Zdigits2. cbn [Zdigits2].
  set (d := Z.pos (digits2_pos p)) in *.
  assert (Hd : 1 <= d <= prec).
  { split; [subst d; lia|].
    destruct (Z_le_gt_dec d prec) as [|G]; [assumption|exfalso].
    assert (2 ^ prec <= 2 ^ (d - 1)) by (apply Z.pow_le_mono_r; lia). lia. }
  rewrite Z.add_0_r. unfold fexp.
  replace (Z.max (d - prec) (emin prec emax)) with (d - prec) by (unfold emin, prec, emax in *; lia).
  unfold shl_align. rewrite Z.sub_0_r.
  destruct (Z.eq_dec d prec) as [E | NE].
  - rewrite E, Z.sub_diag. exists p, 0. repeat split; try (unfold prec; lia).
    + apply binary_round_aux_full; try (unfold emin, prec, emax in *; lia). reflexivity.
    + cbn. lia.
  - assert (Hneg : d - prec < 0) by lia.
    destruct (d - prec) as [|k|k] eqn:Hk; try lia.
    exists (Pos.iter xO p k), (Z.neg k).
    assert (Hm : Z.pos (Pos.iter xO p k) = Z.pos p * 2 ^ Z.pos k) by apply iter_xO_mul.
    assert (Hdm : Z.pos (digits2_pos (Pos.iter xO p k)) = prec).
    { apply digits2_pos_unique. rewrite Hm.
      replace (2 ^ (prec - 1)) with (2 ^ ((d - 1) + Z.pos k)) by (f_equal; lia).
      replace (2 ^ prec) with (2 ^ (d + Z.pos k)) by (f_equal; lia).
      rewrite !Z.pow_add_r by lia.
      assert (0 < 2 ^ Z.pos k) by (apply Z.pow_pos_nonneg; lia).
      split; [apply Z.mul_le_mono_nonneg_r | apply Z.mul_lt_mono_pos_r]; lia. }
    repeat split; try (unfold prec in *; lia).
    + apply binary_round_aux_full; try (unfold emin, prec, emax in *; lia). reflexivity.
    + rewrite Hm. reflexivity.
Qed.

Lemma pow2_53 : 2 ^ prec = 9007199254740992. Proof. reflexivity. Qed.
Lemma pow2_52 : 2 ^ (prec - 1) = 4503599627370496. Proof. reflexivity. Qed.

Lemma digits_prec_bounds (m : positive) :
  Z.pos (digits2_pos m) = prec <-> 2 ^ (prec - 1) <= Z.pos m < 2 ^ prec.
Proof.
  split.
  - intros H. rewrite <- H. apply digits2_pos_bounds.
  - apply digits2_pos_unique.
Qed.

Lemma Math_sqrt_finite (m : positive) (e : Z) :
  Z.pos (digits2_pos m) = prec -> 1 - prec <= e <= 0 ->
  exists (Q : positive) (q r : Z),
    Math_sqrt (S754_finite false m e) = S754_finite false Q (e / 2 - 26)
    /\ Z.pos (digits2_pos Q) = prec
    /\ Z.pos m * 2 ^ (e - 2 * (e / 2 - 26)) = q * q + r
    /\ 0 <= r <= 2 * q
    /\ Z.pos Q = (if r =? 0 then q else if r <=? q then q else q + 1).
Proof.
  intros Hd He. apply digits_prec_bounds in Hd as Hm. rewrite pow2_53, pow2_52 in Hm.
  unfold Math_sqrt, SFsqrt, SFsqrt_core_binary. cbn [Zdigits2]. rewrite Hd.
  rewrite !Z.div2_div. unfold fexp, emin.
  assert (He' : Z.min (Z.max ((prec + e + 1) / 2 - prec) (3 - emax - prec)) (e / 2) = e / 2 - 26)
    by (unfold prec, emax in *; Z.div_mod_to_equations; lia).
  rewrite He'. set (e' := e / 2 - 26) in *.
  assert (Hs : e - 2 * e' = 52 \/ e - 2 * e' = 53)
    by (subst e'; unfold prec in *; Z.div_mod_to_equations; lia).
  set (M := match e - 2 * e' with
            | 0 => Z.pos m | Z.pos _ => Z.shiftl (Z.pos m) (e - 2 * e') | Z.neg _ => 0 end).
  assert (HM : M = Z.pos m * 2 ^ (e - 2 * e')).
  { subst M. destruct Hs as [-> | ->]; rewrite Z.shiftl_mul_pow2 by lia; reflexivity. }
  assert (HMb : 2 ^ 104 <= M <= 2 ^ 106 - 2 ^ 53).
  { rewrite HM. destruct Hs as [-> | ->]; lia. }
  clearbody M.
  pose proof (Z.sqrtrem_spec M ltac:(lia)) as Hsq.
  destruct (Z.sqrtrem M) as [q r]. destruct Hsq as [Hqr Hr].
  assert (Hq : 2 ^ 52 <= q < 2 ^ 53).
  { split.
    - destruct (Z_lt_le_dec q (2 ^ 52)) as [L|]; [exfalso|assumption].
      assert (q * q + r < 2 ^ 104) by nia. lia.
    - destruct (Z_lt_le_dec q (2 ^ 53)) as [|L]; [assumption|exfalso].
      assert (2 ^ 106 <= q * q) by nia. lia. }
  destruct q as [|qp|qp]; try lia.
  set (Qz := if r =? 0 then Z.pos qp else if r <=? Z.pos qp then Z.pos qp else Z.pos qp + 1).
  assert (HQ : 2 ^ 52 <= Qz < 2 ^ 53).
  { subst Qz. destruct (r =? 0); [lia|]. destruct (Z.leb_spec r (Z.pos qp)); [lia|].
    split; [lia|].
    destruct (Z.eq_dec (Z.pos qp) (2 ^ 53 - 1)) as [E|]; [exfalso|lia].
    rewrite E in *. lia. }
  destruct Qz as [|Q|Q] eqn:EQ; try lia.
  exists Q, (Z.pos qp), r. rewrite <- HM.
  repeat split; try assumption; try lia.
  - apply binary_round_aux_full.
    + apply digits_prec_bounds. rewrite pow2_53, pow2_52. lia.
    + unfold emin, prec, emax in *. lia.
    + rewrite <- EQ. subst Qz. unfold round_nearest_even.
      destruct (r =? 0); [reflexivity|]. destruct (r <=? Z.pos qp); reflexivity.
    + apply digits_prec_bounds. rewrite pow2_53, pow2_52. lia.
  - apply digits_prec_bounds. rewrite pow2_53, pow2_52. lia.
Qed.

Lemma mul_compare_r (n m p : Z) : 0 < p -> (n * p ?= m * p) = (n ?= m).
Proof.
  intros Hp. destruct (Z.compare_spec n m) as [E | L | G].
  - subst. apply Z.compare_refl.
  - apply Z.compare_lt_iff. nia.
  - apply Z.compare_gt_iff. nia.
Qed.

Lemma compare_finite (m1 m2 : positive) (e1 e2 T : Z) :
  Z.pos (digits2_pos m1) = prec -> Z.pos (digits2_pos m2) = prec ->
  T <= e1 -> T <= e2 ->
  SFcompare (S754_finite false m1 e1) (S754_finite false m2 e2)
  = Some (Z.pos m1 * 2 ^ (e1 - T) ?= Z.pos m2 * 2 ^ (e2 - T)).
Proof.
  intros H1 H2 T1 T2.
  apply digits_prec_bounds in H1, H2. rewrite pow2_53, pow2_52 in H1, H2.
  unfold SFcompare. f_equal.
  assert (P1 : 0 < 2 ^ (e1 - T)) by (apply Z.pow_pos_nonneg; lia).
  assert (P2 : 0 < 2 ^ (e2 - T)) by (apply Z.pow_pos_nonneg; lia).
  destruct (Z.compare_spec e1 e2) as [E | L | G].
  - subst e2. change (Pos.compare_cont Eq m1 m2) with (Z.pos m1 ?= Z.pos m2).
    symmetry. apply mul_compare_r, P1.
  - symmetry. apply Z.compare_lt_iff.
    replace (e2 - T) with (Z.succ (e2 - e1 - 1) + (e1 - T)) by lia.
    rewrite Z.pow_add_r, Z.pow_succ_r by lia.
    assert (0 < 2 ^ (e2 - e1 - 1)) by (apply Z.pow_pos_nonneg; lia).
    revert P1 H. generalize (2 ^ (e1 - T)) (2 ^ (e2 - e1 - 1)). intros P R HP HR.
    assert (1 <= P * R) by nia. nia.
  - symmetry. apply Z.compare_gt_iff.
    replace (e1 - T) with (Z.succ (e1 - e2 - 1) + (e2 - T)) by lia.
    rewrite Z.pow_add_r, Z.pow_succ_r by lia.
    assert (0 < 2 ^ (e1 - e2 - 1)) by (apply Z.pow_pos_nonneg; lia).
    revert P2 H. generalize (2 ^ (e2 - T)) (2 ^ (e1 - e2 - 1)). intros P R HP HR.
    assert (1 <= P * R) by nia. nia.
Qed.

Lemma leb_finite (m1 m2 : positive) (e1 e2 T : Z) :
  Z.pos (digits2_pos m1) = prec -> Z.pos (digits2_pos m2) = prec ->
  T <= e1 -> T <= e2 ->
  leb (S754_finite false m1 e1) (S754_finite false m2 e2)
  = (Z.pos m1 * 2 ^ (e1 - T) <=? Z.pos m2 * 2 ^ (e2 - T)).
Proof.
  intros H1 H2 T1 T2. unfold leb, SFleb.
  rewrite (compare_finite m1 m2 e1 e2 T) by assumption.
  unfold Z.leb. destruct (_ ?= _); reflexivity.
Qed.

Lemma sqrt_guard_char (i n : Z) :
  0 < i < 2 ^ prec -> 0 < n < 2 ^ prec ->
  exists X Q q r : Z,
    sqrt_guard i n = (i * X <=? Q)
    /\ 2 ^ 26 <= X /\ n * (X * X) = q * q + r /\ 0 <= r <= 2 * q
    /\ Q = (if r =? 0 then q else if r <=? q then q else q + 1)
    /\ 0 < Q < 2 ^ 53.
Proof.
  intros Hi Hn.
  destruct (of_int_finite i Hi) as (mi & ei & Ei & Di & _ & Bi & Vi).
  destruct (of_int_finite n Hn) as (mn & en & En & Dn & _ & Bn & Vn).
  destruct (Math_sqrt_finite mn en Dn Bn) as (Q & q & r & ES & DQ & HM & Hr & HQ).
  unfold sqrt_guard. rewrite Ei, En, ES.
  set (e' := en / 2 - 26) in *.
  assert (He' : -52 <= e' <= -26) by (subst e'; unfold prec in *; Z.div_mod_to_equations; lia).
  rewrite (leb_finite mi Q ei e' (-52)) by (assumption || (unfold prec in *; lia)).
  exists (2 ^ (- e')), (Z.pos Q), q, r.
  apply digits_prec_bounds in DQ. rewrite pow2_53, pow2_52 in DQ.
  repeat split; try assumption; try lia.
  - rewrite Vi, <- Z.mul_assoc, <- Z.pow_add_r by (unfold prec in *; lia).
    replace (- ei + (ei - -52)) with ((- e') + (e' - -52)) by lia.
    rewrite Z.pow_add_r, Z.mul_assoc by lia.
    assert (0 < 2 ^ (e' - -52)) by (apply Z.pow_pos_nonneg; lia).
    generalize dependent (2 ^ (e' - -52)). intros P HP.
    generalize (i * 2 ^ (- e')). intros a.
    destruct (Z.leb_spec a (Z.pos Q)); [apply Z.leb_le | apply Z.leb_gt]; nia.
  - change (2 ^ 26) with (2 ^ 26). apply Z.pow_le_mono_r; lia.
  - rewrite <- HM, Vn, <- Z.pow_add_r, <- Z.mul_assoc, <- Z.pow_add_r by (unfold prec in *; lia).
    f_equal. f_equal. lia.
Qed.

Lemma sqrt_guard_complete (i n : Z) :
  0 < i < 2 ^ prec -> 0 < n < 2 ^ prec -> i * i <= n -> sqrt_guard i n = true.
Proof.
  intros Hi Hn Hle.
  destruct (sqrt_guard_char i n Hi Hn) as (X & Q & q & r & -> & HX & Hsq & Hr & HQ & HQb).
  apply Z.leb_le.
  assert (i * X <= q).
  { destruct (Z_le_gt_dec (i * X) q) as [|G]; [assumption|exfalso].
    assert ((q + 1) * (q + 1) <= (i * X) * (i * X)) by nia.
    assert ((i * X) * (i * X) <= n * (X * X)) by nia. nia. }
  subst Q. destruct (r =? 0); [lia|]. destruct (r <=? q); lia.
Qed.

Lemma sqrt_guard_sound (i n : Z) :
  0 < i < 2 ^ prec -> 0 < n < 2 ^ prec -> n + 2 <= i * i -> sqrt_guard i n = false.
Proof.
  intros Hi Hn Hgt.
  destruct (sqrt_guard_char i n Hi Hn) as (X & Q & q & r & -> & HX & Hsq & Hr & HQ & HQb).
  apply Z.leb_gt.
  assert (HXX : 2 ^ 52 <= X * X) by (change (2 ^ 52) with (2 ^ 26 * 2 ^ 26); nia).
  assert (Hbig : q * q + r + 2 * (X * X) <= (i * X) * (i * X)) by nia.
  assert (Hq : q < i * X) by nia.
  subst Q. destruct (r =? 0); [lia|]. destruct (Z.leb_spec r q); [lia|].
  destruct (Z.eq_dec (i * X) (q + 1)) as [E|]; [exfalso|lia].
  rewrite E in Hbig. nia.
Qed.

Lemma of_int_unique (c : Z) (m : positive) (e : Z) :
  0 < c < 2 ^ prec -> Z.pos (digits2_pos m) = prec -> e <= 0 ->
  Z.pos m = c * 2 ^ (- e) -> of_int c = S754_finite false m e.
Proof.
  intros Hc Hd He Hm.
  destruct (of_int_finite c Hc) as (m0 & e0 & -> & Hd0 & _ & He0 & Hm0).
  apply digits_prec_bounds in Hd, Hd0. rewrite pow2_53, pow2_52 in Hd, Hd0.
  assert (e = e0).
  { destruct (Z.lt_trichotomy e e0) as [L | [E | L]]; [exfalso | assumption | exfalso].
    - replace (- e) with (Z.succ (e0 - e - 1) + - e0) in Hm by lia.
      rewrite Z.pow_add_r, Z.pow_succ_r in Hm by lia.
      assert (0 < 2 ^ (e0 - e - 1)) by (apply Z.pow_pos_nonneg; lia).
      revert Hm Hm0 H. generalize (2 ^ (e0 - e - 1)) (2 ^ (- e0)). intros P R Hm Hm0 HP.
      assert (Z.pos m = Z.pos m0 * (2 * P)) by (rewrite Hm, Hm0; ring). nia.
    - replace (- e0) with (Z.succ (e - e0 - 1) + - e) in Hm0 by lia.
      rewrite Z.pow_add_r, Z.pow_succ_r in Hm0 by lia.
      assert (0 < 2 ^ (e - e0 - 1)) by (apply Z.pow_pos_nonneg; lia).
      revert Hm Hm0 H. generalize (2 ^ (e - e0 - 1)) (2 ^ (- e)). intros P R Hm Hm0 HP.
      assert (Z.pos m0 = Z.pos m * (2 * P)) by (rewrite Hm, Hm0; ring). nia. }
  subst e0. f_equal. apply Pos2Z.inj. congruence.
Qed.

Lemma shr_1_double (a : Z) :
  0 < a ->
  shr_1 {| shr_m := 2 * a; shr_r := false; shr_s := false |}
  = {| shr_m := a; shr_r := false; shr_s := false |}.
Proof. destruct a; try lia. reflexivity. Qed.

Lemma iter_shr_1_pow2 (k : positive) (a : Z) :
  0 < a ->
  iter_pos shr_1 k {| shr_m := a * 2 ^ Z.pos k; shr_r := false; shr_s := false |}
  = {| shr_m := a; shr_r := false; shr_s := false |}.
Proof.
  revert a. induction k as [k IH | k IH |]; intros a Ha; cbn [iter_pos].
  - rewrite (Pos2Z.inj_xI k).
    replace (a * 2 ^ (2 * Z.pos k + 1)) with (2 * ((a * 2 ^ Z.pos k) * 2 ^ Z.pos k))
      by (rewrite Z.pow_add_r, Z.pow_mul_r, Z.pow_1_r by lia;
          rewrite <- (Z.pow_mul_r 2 2), (Z.mul_comm 2 (Z.pos k)), Z.pow_mul_r by lia;
          rewrite Z.pow_2_r; ring).
    assert (0 < 2 ^ Z.pos k) by (apply Z.pow_pos_nonneg; lia).
    rewrite shr_1_double by nia. rewrite IH by nia. apply IH, Ha.
  - rewrite (Pos2Z.inj_xO k).
    replace (a * 2 ^ (2 * Z.pos k)) with ((a * 2 ^ Z.pos k) * 2 ^ Z.pos k)
      by (rewrite (Z.mul_comm 2 (Z.pos k)), Z.pow_mul_r, Z.pow_2_r by lia; ring).
    assert (0 < 2 ^ Z.pos k) by (apply Z.pow_pos_nonneg; lia).
    rewrite IH by nia. apply IH, Ha.
  - rewrite Z.pow_1_r, Z.mul_comm. apply shr_1_double, Ha.
Qed.

Lemma pow2_pos (k : Z) : 0 <= k -> 0 < 2 ^ k.
Proof. intros. apply Z.pow_pos_nonneg; lia. Qed.

Lemma pow2_split (a b : Z) : 0 <= a -> 0 <= b -> 2 ^ (a + b) = 2 ^ a * 2 ^ b.
Proof. intros. apply Z.pow_add_r; lia. Qed.

Lemma pow2_lt_inv (a b : Z) : 0 <= b -> 2 ^ a < 2 ^ b -> a < b.
Proof.
  intros Hb H. destruct (Z_lt_le_dec a b) as [|L]; [assumption|exfalso].
  assert (2 ^ b <= 2 ^ a) by (apply Z.pow_le_mono_r; lia). lia.
Qed.

Lemma round_aux_exact (M : positive) (E c : Z) :
  0 < c < 2 ^ prec -> emin prec emax <= E <= 0 ->
  Z.pos M = c * 2 ^ (- E) -> prec <= Z.pos (digits2_pos M) ->
  binary_round_aux prec emax false (Z.pos M) E loc_Exact = of_int c.
Proof.
  intros Hc HE HM Hd.
  destruct (Z.eq_dec (Z.pos (digits2_pos M)) prec) as [E53 | N53].
  - rewrite (of_int_unique c M E) by (assumption || lia).
    apply binary_round_aux_full; try assumption; try reflexivity.
    unfold emin, prec, emax in *; lia.
  - destruct (digits2_pos_bounds M) as [Dlo Dhi].
    set (d := Z.pos (digits2_pos M)) in *.
    assert (HdE : d <= prec - E).
    { assert (2 ^ (d - 1) < 2 ^ (prec - E)).
      { eapply Z.le_lt_trans; [exact Dlo|]. rewrite HM.
        unfold Z.sub at 1. rewrite pow2_split by (unfold prec; lia).
        apply Z.mul_lt_mono_pos_r; [apply pow2_pos|]; lia. }
      apply pow2_lt_inv in H; unfold prec in *; lia. }
    assert (Hk : 0 < d - prec) by lia.
    destruct (d - prec) as [|k|k] eqn:Ek; try lia.
    set (a := c * 2 ^ (- E - Z.pos k)).
    assert (Ha : Z.pos M = a * 2 ^ Z.pos k).
    { subst a. rewrite <- Z.mul_assoc, <- pow2_split by lia. rewrite HM. f_equal. f_equal. lia. }
    assert (Hab : 2 ^ (prec - 1) <= a < 2 ^ prec).
    { assert (P : 0 < 2 ^ Z.pos k) by (apply pow2_pos; lia).
      replace (2 ^ (d - 1)) with (2 ^ (prec - 1) * 2 ^ Z.pos k) in Dlo
        by (rewrite <- pow2_split by (unfold prec; lia); f_equal; lia).
      replace (2 ^ d) with (2 ^ prec * 2 ^ Z.pos k) in Dhi
        by (rewrite <- pow2_split by (unfold prec; lia); f_equal; lia).
      rewrite Ha in Dlo, Dhi. split.
      - apply Z.mul_le_mono_pos_r in Dlo; assumption.
      - apply Z.mul_lt_mono_pos_r in Dhi; assumption. }
    rewrite pow2_53, pow2_52 in Hab.
    destruct a as [|ap|ap] eqn:Eap; try lia.
    assert (Dap : Z.pos (digits2_pos ap) = prec)
      by (apply digits_prec_bounds; rewrite pow2_53, pow2_52; lia).
    unfold binary_round_aux.
    assert (S1 : shr_fexp prec emax (Z.pos M) E loc_Exact
                 = ({| shr_m := Z.pos ap; shr_r := false; shr_s := false |}, E + Z.pos k)).
    { unfold shr_fexp, fexp. cbn [Zdigits2]. fold d.
      replace (Z.max (d + E - prec) (emin prec emax) - E) with (Z.pos k)
        by (unfold emin, prec, emax in *; lia).
      cbn [shr shr_record_of_loc]. rewrite Ha, iter_shr_1_pow2 by lia. reflexivity. }
    rewrite S1. cbn [shr_m loc_of_shr_record round_nearest_even].
    rewrite shr_fexp_full by (try assumption; unfold emin, prec, emax in *; lia).
    cbn [shr_record_of_loc shr_m].
    destruct (Z.leb_spec (E + Z.pos k) (emax - prec)) as [_|B];
      [|unfold emin, prec, emax in *; lia].
    symmetry. apply of_int_unique; try assumption; try lia.
    rewrite <- Eap. subst a. f_equal. f_equal. lia.
Qed.

Lemma normalize_exact (M E c : Z) :
  0 <= c < 2 ^ prec -> emin prec emax + prec <= E <= 0 ->
  M = c * 2 ^ (- E) ->
  binary_normalize prec emax M E false = of_int c.
Proof.
  intros Hc HE HM.
  assert (P : 0 < 2 ^ (- E)) by (apply pow2_pos; lia).
  destruct (Z.eq_dec c 0) as [-> | Hc0]; [subst M; reflexivity|].
  destruct M as [|M|M]; try nia.
  unfold binary_normalize, binary_round.
  destruct (digits2_pos_bounds M) as [Dlo Dhi].
  set (d := Z.pos (digits2_pos M)) in *.
  assert (Hd1 : 1 <= d) by (subst d; lia).
  unfold fexp, shl_align.
  destruct (Z_lt_le_dec d prec) as [Lt53 | Ge53].
  - replace (Z.max (d + E - prec) (emin prec emax) - E) with (d - prec)
      by (unfold emin, prec, emax in *; lia).
    destruct (d - prec) as [|k|k] eqn:Ek; try lia.
    replace (Z.max (d + E - prec) (emin prec emax)) with (E - Z.pos k)
      by (unfold emin, prec, emax in *; lia).
    assert (Hm : Z.pos (Pos.iter xO M k) = Z.pos M * 2 ^ Z.pos k) by apply iter_xO_mul.
    assert (Hdm : Z.pos (digits2_pos (Pos.iter xO M k)) = prec).
    { apply digits2_pos_unique. rewrite Hm.
      replace (2 ^ (prec - 1)) with (2 ^ ((d - 1) + Z.pos k)) by (f_equal; lia).
      replace (2 ^ prec) with (2 ^ (d + Z.pos k)) by (f_equal; lia).
      rewrite !pow2_split by lia.
      assert (0 < 2 ^ Z.pos k) by (apply pow2_pos; lia).
      split; [apply Z.mul_le_mono_nonneg_r | apply Z.mul_lt_mono_pos_r]; lia. }
    rewrite (of_int_unique c (Pos.iter xO M k) (E - Z.pos k)); try assumption; try lia.
    + apply binary_round_aux_full; try assumption; try reflexivity.
      unfold emin, prec, emax in *; lia.
    + rewrite Hm, HM, <- Z.mul_assoc, <- pow2_split by lia. f_equal. f_equal. lia.
  - replace (Z.max (d + E - prec) (emin prec emax) - E) with (d - prec)
      by (unfold emin, prec, emax in *; lia).
    destruct (d - prec) as [|k|k] eqn:Ek; try lia;
      apply round_aux_exact; try assumption; subst d; unfold emin, prec, emax in *; lia.
Qed.

Lemma shl_align_value (m : positive) (e e' : Z) :
  e' <= e -> Z.pos (fst (shl_align m e e')) = Z.pos m * 2 ^ (e - e').
Proof.
  intros H. unfold shl_align.
  destruct (e' - e) as [|k|k] eqn:Ek; try lia; cbn [fst].
  - replace (e - e') with 0 by lia. cbn. lia.
  - rewrite iter_xO_mul. f_equal. f_equal. lia.
Qed.

Lemma compare_of_int (a b : Z) :
  0 < a < 2 ^ prec -> 0 < b < 2 ^ prec ->
  SFcompare (of_int a) (of_int b) = Some (a ?= b).
Proof.
  intros Ha Hb.
  destruct (of_int_finite a Ha) as (ma & ea & -> & Da & _ & Ba & Va).
  destruct (of_int_finite b Hb) as (mb & eb & -> & Db & _ & Bb & Vb).
  rewrite (compare_finite ma mb ea eb (1 - prec)) by (assumption || lia).
  rewrite Va, Vb, <- !Z.mul_assoc, <- !pow2_split by (unfold prec in *; lia).
  replace (- ea + (ea - (1 - prec))) with (prec - 1) by lia.
  replace (- eb + (eb - (1 - prec))) with (prec - 1) by lia.
  f_equal. apply mul_compare_r. reflexivity.
Qed.

Lemma ltb_exact (a b : Z) :
  0 < a < 2 ^ prec -> 0 < b < 2 ^ prec -> ltb (of_int a) (of_int b) = (a <? b).
Proof.
  intros Ha Hb. unfold ltb, SFltb. rewrite compare_of_int by assumption.
  unfold Z.ltb. destruct (a ?= b); reflexivity.
Qed.

Lemma eqb_zero_exact (r : Z) :
  0 <= r < 2 ^ prec -> eqb (of_int r) (of_int 0) = (r =? 0).
Proof.
  intros Hr. destruct (Z.eq_dec r 0) as [-> | N]; [reflexivity|].
  destruct (of_int_finite r ltac:(lia)) as (m & e & -> & _).
  symmetry. apply Z.eqb_neq in N. rewrite N. reflexivity.
Qed.

Lemma add_exact (a b : Z) :
  0 < a -> 0 < b -> a + b < 2 ^ prec -> add (of_int a) (of_int b) = of_int (a + b).
Proof.
  intros Ha Hb Hab.
  destruct (of_int_finite a ltac:(lia)) as (ma & ea & -> & Da & _ & Ba & Va).
  destruct (of_int_finite b ltac:(lia)) as (mb & eb & -> & Db & _ & Bb & Vb).
  unfold add, SFadd. cbn [cond_Zopp].
  apply normalize_exact; try lia.
  - unfold emin, prec, emax in *. lia.
  - rewrite !shl_align_value by lia. rewrite Va, Vb.
    rewrite <- !Z.mul_assoc, <- !pow2_split by (unfold prec in *; lia).
    replace (- ea + (ea - Z.min ea eb)) with (- Z.min ea eb) by lia.
    replace (- eb + (eb - Z.min ea eb)) with (- Z.min ea eb) by lia.
    ring.
Qed.

Lemma rem_exact (a b : Z) :
  0 < a < 2 ^ prec -> 0 < b < 2 ^ prec -> rem (of_int a) (of_int b) = of_int (Z.rem a b).
Proof.
  intros Ha Hb.
  destruct (of_int_finite a Ha) as (ma & ea & -> & Da & _ & Ba & Va).
  destruct (of_int_finite b Hb) as (mb & eb & -> & Db & _ & Bb & Vb).
  unfold rem. cbn [cond_Zopp].
  rewrite Z.rem_mod_nonneg by lia.
  pose proof (Z.mod_pos_bound a b ltac:(lia)).
  apply normalize_exact; try lia.
  - unfold emin, prec, emax in *. lia.
  - rewrite !shl_align_value by lia. rewrite Va, Vb.
    rewrite <- !Z.mul_assoc, <- !pow2_split by (unfold prec in *; lia).
    replace (- ea + (ea - Z.min ea eb)) with (- Z.min ea eb) by lia.
    replace (- eb + (eb - Z.min ea eb)) with (- Z.min ea eb) by lia.
    assert (0 < 2 ^ (- Z.min ea eb)) by (apply pow2_pos; lia).
    rewrite Zmult_mod_distr_r. reflexivity.
Qed.

Lemma new_location_zero (nb : Z) : new_location nb 0 = loc_Exact.
Proof. unfold new_location. destruct (Z.even nb); reflexivity. Qed.

Lemma div_exact (a b : Z) :
  0 < a < 2 ^ prec -> 0 < b < 2 ^ prec -> Z.rem a b = 0 ->
  div (of_int a) (of_int b) = of_int (a / b).
Proof.
  intros Ha Hb Hrem.
  rewrite Z.rem_mod_nonneg in Hrem by lia.
  apply Z_div_exact_full_2 in Hrem; [|lia].
  set (c := a / b) in *. clearbody c.
  assert (Hc : 0 < c <= a) by nia.
  destruct (of_int_finite a Ha) as (ma & ea & -> & Da & _ & Ba & Va).
  destruct (of_int_finite b Hb) as (mb & eb & -> & Db & _ & Bb & Vb).
  unfold div, SFdiv, SFdiv_core_binary. cbn [Zdigits2 xorb]. rewrite Da, Db.
  unfold fexp.
  replace (Z.min (Z.max (prec + ea - (prec + eb) - prec) (emin prec emax)) (ea - eb))
    with (ea - eb - prec) by (unfold emin, prec, emax in *; lia).
  replace (ea - eb - (ea - eb - prec)) with prec by lia.
  change (match prec with 0 => Z.pos ma | Z.pos _ => Z.shiftl (Z.pos ma) prec | Z.neg _ => 0 end)
    with (Z.shiftl (Z.pos ma) prec).
  rewrite Z.shiftl_mul_pow2 by (unfold prec; lia).
  set (E := ea - eb - prec).
  assert (HE : -105 <= E <= -1) by (subst E; unfold prec in *; lia).
  set (q := c * 2 ^ (- E)).
  assert (Hq : Z.pos ma * 2 ^ prec = q * Z.pos mb).
  { subst q. rewrite Va, Vb.
    transitivity (a * 2 ^ (- ea + prec));
      [rewrite pow2_split by (unfold prec in *; lia); ring|].
    transitivity (c * b * 2 ^ (- E + - eb));
      [|rewrite pow2_split by (unfold prec in *; lia); ring].
    replace (- E + - eb) with (- ea + prec) by (subst E; lia).
    f_equal. lia. }
  pose proof (Z.div_mul q (Z.pos mb) ltac:(lia)) as Hdiv.
  pose proof (Z.mod_mul q (Z.pos mb) ltac:(lia)) as Hmod.
  rewrite <- Hq in Hdiv, Hmod. unfold Z.div, Z.modulo in Hdiv, Hmod.
  destruct (Z.div_eucl (Z.pos ma * 2 ^ prec) (Z.pos mb)) as [q' r']. subst q' r'.
  rewrite new_location_zero.
  apply digits_prec_bounds in Da as Ma, Db as Mb. rewrite pow2_53, pow2_52 in Ma, Mb.
  assert (Hqlo : 2 ^ (prec - 1) <= q) by (rewrite pow2_52; rewrite pow2_53 in Hq; nia).
  destruct q as [|qp|qp] eqn:Eq; try (rewrite pow2_52 in Hqlo; lia).
  apply round_aux_exact.
  - rewrite pow2_53 in *. lia.
  - unfold emin, prec, emax in *. lia.
  - symmetry. exact Eq.
  - destruct (digits2_pos_bounds qp) as [_ Dhi].
    assert (2 ^ (prec - 1) < 2 ^ Z.pos (digits2_pos qp)) by lia.
    apply pow2_lt_inv in H; lia.
Qed.

(** *** Integers outside the exact range

    Negative integers convert to negative numbers, integers from 2^53 on
    to numbers with a positive exponent, or to infinity. *)

Lemma shr_1_half (r : shr_record) :
  0 <= shr_m r -> shr_m (shr_1 r) = shr_m r / 2.
Proof.
  destruct r as [m rb sb]. cbn [shr_m]. intros Hm.
  destruct m as [|[p|p|]|p]; cbn [shr_1 shr_m]; try lia; try reflexivity.
  - rewrite (Pos2Z.inj_xI p). Z.div_mod_to_equations. lia.
  - rewrite (Pos2Z.inj_xO p). Z.div_mod_to_equations. lia.
Qed.

Lemma pow2_xO (k : positive) : 2 ^ Z.pos k~0 = 2 ^ Z.pos k * 2 ^ Z.pos k.
Proof.
  rewrite (Pos2Z.inj_xO k). replace (2 * Z.pos k) with (Z.pos k + Z.pos k) by lia.
  apply pow2_split; lia.
Qed.

Lemma pow2_xI (k : positive) : 2 ^ Z.pos k~1 = 2 * 2 ^ Z.pos k * 2 ^ Z.pos k.
Proof.
  rewrite (Pos2Z.inj_xI k). replace (2 * Z.pos k + 1) with (Z.succ (Z.pos k + Z.pos k)) by lia.
  rewrite Z.pow_succ_r, pow2_split by lia. ring.
Qed.

Lemma iter_shr_1_div (k : positive) :
  forall r : shr_record,
    0 <= shr_m r -> shr_m (iter_pos shr_1 k r) = shr_m r / 2 ^ Z.pos k.
Proof.
  induction k as [k IH | k IH |]; intros r Hr; cbn [iter_pos].
  - assert (H1 : 0 <= shr_m (shr_1 r))
      by (rewrite shr_1_half by assumption; apply Z.div_pos; lia).
    assert (P : 0 < 2 ^ Z.pos k) by (apply pow2_pos; lia).
    assert (H2 : 0 <= shr_m (iter_pos shr_1 k (shr_1 r)))
      by (rewrite IH by assumption; apply Z.div_pos; lia).
    rewrite IH, IH, shr_1_half by assumption.
    rewrite !Z.div_div by lia. rewrite pow2_xI. f_equal. ring.
  - assert (P : 0 < 2 ^ Z.pos k) by (apply pow2_pos; lia).
    assert (H2 : 0 <= shr_m (iter_pos shr_1 k r))
      by (rewrite IH by assumption; apply Z.div_pos; lia).
    rewrite IH, IH by assumption. rewrite Z.div_div by lia.
    rewrite pow2_xO. reflexivity.
  - rewrite shr_1_half by assumption. reflexivity.
Qed.

Lemma round_nearest_even_bounds (m : Z) (l : location) :
  m <= round_nearest_even m l <= m + 1.
Proof.
  unfold round_nearest_even. destruct l as [|[]]; try lia. destruct (Z.even m); lia.
Qed.

Lemma shr_nonneg (r : shr_record) (e n : Z) :
  0 <= shr_m r -> 0 <= shr_m (fst (shr r e n)).
Proof.
  intros Hr. unfold shr. destruct n as [|k|k]; cbn [fst]; try assumption.
  rewrite iter_shr_1_div by assumption. apply Z.div_pos; [assumption | apply pow2_pos; lia].
Qed.

(** Rounding never turns a sign around nor produces a NaN. *)
Lemma binary_round_aux_signed (s : bool) (M : positive) (E : Z) (l : location) :
  let r := binary_round_aux prec emax s (Z.pos M) E l in
  r = S754_zero s \/ r = S754_infinity s \/ exists m e, r = S754_finite s m e.
Proof.
  cbv zeta. unfold binary_round_aux, shr_fexp.
  pose proof (shr_nonneg (shr_record_of_loc (Z.pos M) l) E
                (fexp prec emax (Zdigits2 (Z.pos M) + E) - E)) as H1.
  destruct (shr (shr_record_of_loc (Z.pos M) l) E _) as [mrs' e'].
  cbn [fst] in H1. specialize (H1 ltac:(rewrite (proj2 (loc_roundtrip _ _)); lia)).
  pose proof (round_nearest_even_bounds (shr_m mrs') (loc_of_shr_record mrs')) as H2.
  set (m2 := round_nearest_even (shr_m mrs') (loc_of_shr_record mrs')) in *.
  pose proof (shr_nonneg (shr_record_of_loc m2 loc_Exact) e'
                (fexp prec emax (Zdigits2 m2 + e') - e')) as H3.
  destruct (shr (shr_record_of_loc m2 loc_Exact) e' _) as [mrs'' e''].
  cbn [fst shr_record_of_loc shr_m] in H3. specialize (H3 ltac:(lia)).
  destruct (shr_m mrs'') as [|m|m]; try lia.
  - left. reflexivity.
  - right. destruct (e'' <=? emax - prec); [right; eauto | left; reflexivity].
Qed.

Lemma of_int_negative (n : Z) (m : positive) (e : Z) :
  n < 0 -> ltb (of_int n) (S754_finite false m e) = true.
Proof.
  intros Hn. destruct n as [|p|p]; try lia.
  unfold of_int, binary_normalize, binary_round.
  destruct (shl_align p 0 _) as [mz ez].
  destruct (binary_round_aux_signed true mz ez loc_Exact) as [-> | [-> | (m' & e' & ->)]];
    reflexivity.
Qed.

Lemma of_int_large (n : Z) :
  2 ^ prec <= n ->
  of_int n = S754_infinity false
  \/ exists m e, of_int n = S754_finite false m e /\ 1 <= e.
Proof.
  intros Hn. destruct n as [|p|p]; try (rewrite pow2_53 in Hn; lia).
  destruct (digits2_pos_bounds p) as [Dlo Dhi].
  unfold of_int, binary_normalize, binary_round. rewrite Z.add_0_r.
  set (d := Z.pos (digits2_pos p)) in *.
  assert (Hd : prec < d) by (apply pow2_lt_inv; [subst d|]; lia).
  assert (Hf : fexp prec emax d = d - prec)
    by (unfold fexp, emin, prec, emax in *; lia).
  unfold shl_align. rewrite Hf, Z.sub_0_r.
  destruct (d - prec) as [|k|k] eqn:Ek; try lia.
  unfold binary_round_aux.
  assert (S1 : shr_fexp prec emax (Z.pos p) 0 loc_Exact
               = (iter_pos shr_1 k {| shr_m := Z.pos p; shr_r := false; shr_s := false |},
                  Z.pos k)).
  { unfold shr_fexp. cbn [Zdigits2]. fold d. rewrite Z.add_0_r, Z.sub_0_r, Hf.
    reflexivity. }
  rewrite S1.
  set (mrs' := iter_pos shr_1 k _).
  assert (Hm1 : shr_m mrs' = Z.pos p / 2 ^ Z.pos k)
    by (subst mrs'; rewrite iter_shr_1_div by (cbn; lia); reflexivity).
  assert (P : 0 < 2 ^ Z.pos k) by (apply pow2_pos; lia).
  assert (B1 : 2 ^ (prec - 1) <= shr_m mrs' < 2 ^ prec).
  { rewrite Hm1. split.
    - apply Z.div_le_lower_bound; [assumption|].
      rewrite Z.mul_comm, <- pow2_split by (unfold prec; lia).
      replace (prec - 1 + Z.pos k) with (d - 1) by lia. assumption.
    - apply Z.div_lt_upper_bound; [assumption|].
      rewrite Z.mul_comm, <- pow2_split by (unfold prec; lia).
      replace (prec + Z.pos k) with d by lia. assumption. }
  pose proof (round_nearest_even_bounds (shr_m mrs') (loc_of_shr_record mrs')) as B2.
  set (m2 := round_nearest_even (shr_m mrs') (loc_of_shr_record mrs')) in *.
  rewrite pow2_53, pow2_52 in B1.
  destruct (Z.eq_dec m2 (2 ^ prec)) as [E2 | N2].
  - rewrite E2.
    assert (S2 : shr_fexp prec emax (2 ^ prec) (Z.pos k) loc_Exact
                 = ({| shr_m := 2 ^ (prec - 1); shr_r := false; shr_s := false |},
                    Z.pos k + 1)).
    { unfold shr_fexp, fexp. change (Zdigits2 (2 ^ prec)) with (prec + 1).
      replace (Z.max (prec + 1 + Z.pos k - prec) (emin prec emax) - Z.pos k) with 1
        by (unfold emin, prec, emax in *; lia).
      reflexivity. }
    rewrite S2. cbn [shr_m]. change (2 ^ (prec - 1)) with (Z.pos 4503599627370496).
    cbv iota. destruct (Z.pos k + 1 <=? emax - prec); [right | left; reflexivity].
    eexists _, _. split; [reflexivity | lia].
  - rewrite pow2_53 in N2.
    destruct m2 as [|q|q] eqn:Em2; try lia.
    rewrite shr_fexp_full.
    + cbn [shr_record_of_loc shr_m].
      destruct (Z.pos k <=? emax - prec); [right | left; reflexivity].
      eexists _, _. split; [reflexivity | lia].
    + apply digits_prec_bounds. rewrite pow2_53, pow2_52. lia.
    + unfold emin, prec, emax. lia.
Qed.

End Binary64Facts.

Import Binary64Facts.

(** *** Divisibility facts used by trial division *)

Lemma nsd_divisor_prime (i n : Z) :
  no_small_divisor i n -> 1 < i -> (i | n) -> Z.prime i.
Proof.
  intros Hn Hi Hd. split; [assumption|].
  intros d Hdi Hdd. apply (Hn d Hdi). eapply Z.divide_trans; eassumption.
Qed.

Lemma nsd_lower (i n : Z) : no_small_divisor i n -> 1 < n -> i <= n.
Proof.
  intros Hn H1. destruct (Z_le_gt_dec i n) as [|G]; [assumption|exfalso].
  apply (Hn n); [lia | apply Z.divide_refl].
Qed.

Lemma nsd_remaining_prime (i n : Z) :
  0 <= i -> no_small_divisor i n -> 1 < n -> n < i * i -> Z.prime n.
Proof.
  intros Hi Hn H1 Hlt. split; [assumption|].
  intros d Hd [q Hq].
  assert (Hqpos : 1 < q) by nia.
  destruct (Z_lt_le_dec d i) as [L | G].
  - apply (Hn d); [lia | exists q; assumption].
  - destruct (Z_lt_le_dec q i) as [L' | G'].
    + apply (Hn q); [lia | exists d; lia].
    + assert (i * i <= q * d) by (apply Z.mul_le_mono_nonneg; lia). lia.
Qed.

Lemma nsd_step (i n n1 : Z) :
  Z.odd i = true -> 3 <= i -> no_small_divisor i n ->
  (n1 | n) -> ~ (i | n1) -> no_small_divisor (i + 2) n1.
Proof.
  intros Ho Hi Hn Hdiv Hnot d Hd Hdd.
  destruct (Z.eq_dec d i) as [-> | Ne]; [contradiction|].
  destruct (Z.eq_dec d (i + 1)) as [-> | Ne1].
  - apply (Hn 2); [lia|]. apply Z.divide_trans with n1; [|assumption].
    apply Z.divide_trans with (i + 1); [|assumption].
    apply Z.odd_spec in Ho. destruct Ho as [k ->]. exists (k + 1). lia.
  - apply (Hn d); [lia|]. eapply Z.divide_trans; eassumption.
Qed.

Lemma nsd_odd (i n : Z) : 3 <= i -> no_small_divisor i n -> Z.odd n = true.
Proof.
  intros Hi Hn. destruct (Z.odd n) eqn:E; [reflexivity|exfalso].
  apply (Hn 2); [lia|]. rewrite <- Z.negb_even in E.
  apply negb_false_iff, Z.even_spec in E. destruct E as [k ->]. exists k. lia.
Qed.

Lemma StronglySorted_app (l1 l2 : list Z) :
  StronglySorted Z.le l1 -> StronglySorted Z.le l2 ->
  (forall x y, In x l1 -> In y l2 -> x <= y) ->
  StronglySorted Z.le (l1 ++ l2).
Proof.
  intros H1 H2 H. induction H1 as [|a l Hl IH Ha]; cbn; [assumption|].
  constructor.
  - apply IH. intros x y Hx Hy. apply H; [right|]; assumption.
  - apply Forall_app. split; [assumption|].
    apply Forall_forall. intros y Hy. apply H; [left; reflexivity | assumption].
Qed.

Lemma StronglySorted_repeat (d : Z) (k : nat) : StronglySorted Z.le (repeat d k).
Proof.
  induction k; cbn; constructor; [assumption|].
  apply Forall_forall. intros y Hy. apply repeat_spec in Hy. lia.
Qed.

Lemma product_app (l1 l2 : list Z) : product (l1 ++ l2) = product l1 * product l2.
Proof. unfold product. induction l1; cbn [app fold_right]; [lia | rewrite IHl1; ring]. Qed.

Lemma product_repeat (d : Z) (k : nat) : product (repeat d k) = d ^ Z.of_nat k.
Proof.
  induction k; [reflexivity|].
  rewrite Nat2Z.inj_succ, Z.pow_succ_r by lia. cbn [repeat]. unfold product in *. cbn. rewrite IHk. reflexivity.
Qed.

(** *** The loops of [primeFactorize] on exact integers *)

Lemma pow2_53_eq : 2 ^ 53 = 9007199254740992.
Proof. reflexivity. Qed.

(** Side conditions of the binary64 lemmas: ranges below 2^53. *)
Ltac in_range :=
  change (2 ^ Binary64.prec) with 9007199254740992 in *;
  change (2 ^ 53) with 9007199254740992 in *;
  change (2 ^ 27) with 134217728 in *;
  lia.

Lemma while_divisible_unfold (fuel : nat) (d n : Z) (fs : list Z) :
  while_divisible (S fuel) d n fs
  = if Z.rem n d =? 0 then while_divisible fuel d (n / d) (fs ++ [d])
    else Some (n, fs).
Proof. reflexivity. Qed.

Lemma for_odd_unfold (fuel : nat) (i n : Z) (fs : list Z) :
  for_odd (S fuel) i n fs
  = if Binary64.sqrt_guard i n
    then '(n', fs') <- while_divisible (S fuel) i n fs ;; for_odd fuel (i + 2) n' fs'
    else Some (n, fs).
Proof. reflexivity. Qed.

Lemma exact_quotient (d n : Z) :
  2 <= d -> 1 <= n -> Z.rem n d = 0 -> n = n / d * d /\ 1 <= n / d < n.
Proof.
  intros Hd Hn Hr. rewrite Z.rem_mod_nonneg in Hr by lia.
  apply Z_div_exact_full_2 in Hr; [|lia]. nia.
Qed.

Lemma while_divisible_post (fuel : nat) :
  forall (d n : Z) (fs : list Z) (n' : Z) (fs' : list Z),
    2 <= d -> 1 <= n ->
    while_divisible fuel d n fs = Some (n', fs') ->
    exists k : nat,
      fs' = fs ++ repeat d k /\ n = n' * d ^ Z.of_nat k /\ 1 <= n' /\ ~ (d | n').
Proof.
  induction fuel as [|fuel IH]; intros d n fs n' fs' Hd Hn Hrun; [discriminate|].
  rewrite while_divisible_unfold in Hrun.
  destruct (Z.eqb_spec (Z.rem n d) 0) as [Hr | Hr].
  - destruct (exact_quotient d n Hd Hn Hr) as [Hq Hqb].
    destruct (IH d (n / d) (fs ++ [d]) n' fs' Hd ltac:(lia) Hrun)
      as (k & -> & Hk & Hn' & Hnd).
    exists (S k). repeat split; try assumption.
    + rewrite <- app_assoc. reflexivity.
    + rewrite Nat2Z.inj_succ, Z.pow_succ_r by lia. rewrite Hq at 1. rewrite Hk. ring.
  - injection Hrun as <- <-. exists 0%nat. repeat split.
    + rewrite app_nil_r. reflexivity.
    + cbn. lia.
    + assumption.
    + intros Hdiv. apply Hr. apply Z.rem_divide; [lia | assumption].
Qed.

Lemma while_divisible_terminates (fuel : nat) :
  forall (d n : Z) (fs : list Z),
    2 <= d -> 1 <= n -> n < 2 ^ Z.of_nat fuel ->
    exists r, while_divisible fuel d n fs = Some r.
Proof.
  induction fuel as [|fuel IH]; intros d n fs Hd Hn Hlt; [cbn in Hlt; lia|].
  rewrite while_divisible_unfold.
  destruct (Z.eqb_spec (Z.rem n d) 0) as [Hr | Hr]; [|eexists; reflexivity].
  destruct (exact_quotient d n Hd Hn Hr) as [Hq Hqb].
  apply IH; try lia.
  rewrite Nat2Z.inj_succ, Z.pow_succ_r in Hlt by lia. nia.
Qed.

Lemma guard_true_bound (i n : Z) :
  0 < i < 2 ^ 53 -> 0 < n < 2 ^ 53 ->
  Binary64.sqrt_guard i n = true -> i * i <= n + 1.
Proof.
  intros Hi Hn Hg. destruct (Z_le_gt_dec (i * i) (n + 1)) as [|G]; [assumption|exfalso].
  rewrite (sqrt_guard_sound i n) in Hg by in_range. discriminate.
Qed.

Lemma guard_false_bound (i n : Z) :
  0 < i < 2 ^ 53 -> 0 < n < 2 ^ 53 ->
  Binary64.sqrt_guard i n = false -> n < i * i.
Proof.
  intros Hi Hn Hg. destruct (Z_lt_le_dec n (i * i)) as [|G]; [assumption|exfalso].
  rewrite (sqrt_guard_complete i n) in Hg by in_range. discriminate.
Qed.

Lemma odd_square_gap (i n : Z) :
  Z.odd i = true -> Z.odd n = true -> i * i <> n + 1.
Proof.
  intros Hi Hn E. assert (Ho : Z.odd (i * i) = true) by (rewrite Z.odd_mul, Hi; reflexivity).
  rewrite E, Z.add_1_r, Z.odd_succ, <- Z.negb_odd, Hn in Ho. discriminate.
Qed.

Lemma guard_exact (i n : Z) :
  0 < i < 2 ^ 53 -> 0 < n < 2 ^ 53 -> Z.odd i = true -> Z.odd n = true ->
  Binary64.sqrt_guard i n = (i * i <=? n).
Proof.
  intros Hi Hn Oi On. pose proof (odd_square_gap i n Oi On).
  destruct (Z.leb_spec (i * i) n).
  - apply sqrt_guard_complete; in_range.
  - apply sqrt_guard_sound; in_range.
Qed.

Lemma trial_inv_range (i n : Z) :
  trial_inv i n -> 0 < i < 2 ^ 53 /\ 0 < n < 2 ^ 53.
Proof. unfold trial_inv. rewrite pow2_53_eq. change (2 ^ 27) with 134217728. lia. Qed.

Lemma trial_inv_step (i n n1 : Z) (k : nat) :
  trial_inv i n -> Binary64.sqrt_guard i n = true ->
  n = n1 * i ^ Z.of_nat k -> 1 <= n1 -> ~ (i | n1) ->
  trial_inv (i + 2) n1 /\ n1 <= n.
Proof.
  intros Hinv Hg Hk Hn1 Hnd.
  destruct (trial_inv_range i n Hinv) as [Ri Rn].
  pose proof (guard_true_bound i n Ri Rn Hg) as Hb.
  destruct Hinv as (Hn & Hi & Ho & Hs).
  assert (Hp : 0 < i ^ Z.of_nat k) by (apply Z.pow_pos_nonneg; lia).
  assert (Hle : n1 <= n) by nia.
  assert (Hi2 : i + 2 <= 2 ^ 27).
  { rewrite pow2_53_eq in *. change (2 ^ 27) with 134217728.
    destruct (Z_le_gt_dec (i + 2) 134217728) as [|G]; [assumption|exfalso].
    assert (134217727 * 134217727 <= i * i) by (apply Z.mul_le_mono_nonneg; lia). lia. }
  assert (Ho2 : Z.odd (i + 2) = true) by (rewrite Z.odd_add, Ho; reflexivity).
  assert (Hs2 : no_small_divisor (i + 2) n1).
  { apply nsd_step with n; try assumption; try lia. exists (i ^ Z.of_nat k). lia. }
  unfold trial_inv. repeat split; (assumption || lia).
Qed.

Lemma for_odd_post (fuel : nat) :
  forall (i n : Z) (fs : list Z) (n' : Z) (fs' : list Z),
    trial_inv i n ->
    for_odd fuel i n fs = Some (n', fs') ->
    exists (i' : Z) (new : list Z),
      fs' = fs ++ new /\ product new * n' = n
      /\ Forall Z.prime new
      /\ Forall (fun p => i <= p < i') new
      /\ StronglySorted Z.le new
      /\ i <= i' /\ no_small_divisor i' n' /\ 1 <= n' /\ n' < i' * i'.
Proof.
  induction fuel as [|fuel IH]; intros i n fs n' fs' Hinv Hrun; [discriminate|].
  rewrite for_odd_unfold in Hrun.
  destruct (trial_inv_range i n Hinv) as [Ri Rn].
  destruct (Binary64.sqrt_guard i n) eqn:Hg.
  - destruct (while_divisible (S fuel) i n fs) as [[n1 fs1]|] eqn:Hw; [|discriminate].
    cbn [bind] in Hrun.
    pose proof Hinv as (Hn & Hi & Ho & Hs).
    destruct (while_divisible_post (S fuel) i n fs n1 fs1 ltac:(lia) ltac:(lia) Hw)
      as (k & -> & Hk & Hn1 & Hnd).
    destruct (trial_inv_step i n n1 k Hinv Hg Hk Hn1 Hnd) as [Hinv1 Hle].
    destruct (IH _ _ _ _ _ Hinv1 Hrun)
      as (i' & new & -> & Hprod & Hprime & Hrange & Hsorted & Hii & Hs' & Hn' & Hlt).
    exists i', (repeat i k ++ new). repeat split; try assumption; try lia.
    + rewrite app_assoc. reflexivity.
    + rewrite product_app, product_repeat, Hk. rewrite <- Hprod. ring.
    + apply Forall_app. split; [|assumption].
      apply Forall_forall. intros p Hp.
      destruct k as [|k]; [destruct Hp|]. apply repeat_spec in Hp as ->.
      apply nsd_divisor_prime with n; try assumption; try lia.
      exists (n1 * i ^ Z.of_nat k). rewrite Hk, Nat2Z.inj_succ, Z.pow_succ_r by lia. ring.
    + apply Forall_app. split.
      * apply Forall_forall. intros p Hp. apply repeat_spec in Hp as ->. lia.
      * eapply Forall_impl; [|exact Hrange]. cbn. intros; lia.
    + apply StronglySorted_app; [apply StronglySorted_repeat | assumption |].
      intros x y Hx Hy. apply repeat_spec in Hx as ->.
      rewrite Forall_forall in Hrange. specialize (Hrange y Hy). lia.
  - injection Hrun as <- <-. exists i, []. destruct Hinv as (Hn & Hi & Ho & Hs).
    rewrite app_nil_r. unfold product. cbn [fold_right].
    pose proof (guard_false_bound i n Ri Rn Hg).
    repeat split; try assumption; try lia; constructor.
Qed.

Lemma for_odd_terminates (fuel : nat) :
  forall (i n : Z) (fs : list Z),
    trial_inv i n -> (0 < fuel)%nat ->
    Z.sqrt n + Z.log2 n + 3 - i < Z.of_nat fuel ->
    exists r, for_odd fuel i n fs = Some r.
Proof.
  induction fuel as [|fuel IH]; intros i n fs Hinv Hpos Hfuel; [lia|].
  rewrite for_odd_unfold.
  destruct (Binary64.sqrt_guard i n) eqn:Hg; [|eexists; reflexivity].
  destruct (trial_inv_range i n Hinv) as [Ri Rn].
  pose proof (guard_true_bound i n Ri Rn Hg) as Hb.
  pose proof (Z.sqrt_spec n ltac:(lia)) as Hsq. cbv zeta in Hsq.
  pose proof (Z.sqrt_nonneg n) as Hs0.
  pose proof (Z.log2_nonneg n) as Hl0.
  pose proof (Z.log2_spec n ltac:(lia)) as [_ Hl].
  assert (Hi : i <= Z.sqrt n + 1) by nia.
  pose proof Hinv as (Hn & Hi3 & _).
  destruct (while_divisible_terminates (S fuel) i n fs ltac:(lia) ltac:(lia)) as [[n1 fs1] Hw].
  { eapply Z.lt_le_trans; [exact Hl|]. apply Z.pow_le_mono_r; lia. }
  rewrite Hw. cbn [bind].
  destruct (while_divisible_post (S fuel) i n fs n1 fs1 ltac:(lia) ltac:(lia) Hw)
    as (k & -> & Hk & Hn1 & Hnd).
  destruct (trial_inv_step i n n1 k Hinv Hg Hk Hn1 Hnd) as [Hinv1 Hle].
  pose proof (Z.sqrt_le_mono n1 n Hle). pose proof (Z.log2_le_mono n1 n Hle).
  apply IH; try assumption; lia.
Qed.

Lemma MAX_SAFE_INTEGER_eq : MAX_SAFE_INTEGER = 2 ^ 53 - 1.
Proof. reflexivity. Qed.

Lemma fuel_for_bound (x : Z) (fuel : nat) :
  1 <= x -> (fuel_for x <= fuel)%nat ->
  Z.sqrt x + Z.log2 x + 2 <= Z.of_nat fuel.
Proof.
  intros Hx Hf. unfold fuel_for in Hf.
  pose proof (Z.sqrt_nonneg x). pose proof (Z.log2_nonneg x). lia.
Qed.

Lemma primeFactorize_fuel_correct (fuel : nat) (x : Z) :
  2 <= x <= MAX_SAFE_INTEGER -> (fuel_for x <= fuel)%nat ->
  exists l : list Z,
    primeFactorize_fuel fuel x = Some l
    /\ product l = x
    /\ Forall Z.prime l
    /\ StronglySorted Z.le l.
Proof.
  intros Hx Hfuel. rewrite MAX_SAFE_INTEGER_eq in Hx.
  pose proof (fuel_for_bound x fuel ltac:(lia) Hfuel) as Hf.
  pose proof (Z.sqrt_nonneg x) as Hs0. pose proof (Z.log2_nonneg x) as Hl0.
  pose proof (Z.log2_spec x ltac:(lia)) as [_ Hl].
  unfold primeFactorize_fuel. cbn [num_lt lit exact_integer].
  destruct (Z.ltb_spec x 2) as [|_]; [lia|].
  destruct (Z.ltb_spec MAX_SAFE_INTEGER x) as [|_]; [rewrite MAX_SAFE_INTEGER_eq in *; lia|].
  destruct (while_divisible_terminates fuel 2 x [] ltac:(lia) ltac:(lia)) as [[n0 fs0] Hw].
  { eapply Z.lt_le_trans; [exact Hl|]. apply Z.pow_le_mono_r; lia. }
  rewrite Hw. cbn [bind].
  destruct (while_divisible_post fuel 2 x [] n0 fs0 ltac:(lia) ltac:(lia) Hw)
    as (k & -> & Hk & Hn0 & Hnd). cbn [app] in *.
  assert (Hp : 0 < 2 ^ Z.of_nat k) by (apply Z.pow_pos_nonneg; lia).
  assert (Hle : n0 <= x) by nia.
  assert (Hinv : trial_inv 3 n0).
  { unfold trial_inv. repeat split; try lia.
    intros d Hd. replace d with 2 by lia. assumption. }
  pose proof (Z.sqrt_le_mono n0 x Hle). pose proof (Z.log2_le_mono n0 x Hle).
  destruct (for_odd_terminates fuel 3 n0 (repeat 2 k) Hinv ltac:(lia) ltac:(lia))
    as [[n' fs'] Hfor].
  rewrite Hfor. cbn [bind].
  destruct (for_odd_post fuel 3 n0 (repeat 2 k) n' fs' Hinv Hfor)
    as (i' & new & -> & Hprod & Hprime & Hrange & Hsorted & Hii & Hs' & Hn' & Hlt).
  assert (H2 : Forall Z.prime (repeat 2 k)).
  { apply Forall_forall. intros p Hp'. apply repeat_spec in Hp' as ->.
    apply Z.prime_2. }
  assert (S2 : StronglySorted Z.le (repeat 2 k ++ new)).
  { apply StronglySorted_app; [apply StronglySorted_repeat | assumption |].
    intros a b Ha Hb. apply repeat_spec in Ha as ->.
    rewrite Forall_forall in Hrange. specialize (Hrange b Hb). lia. }
  destruct (Z.ltb_spec 1 n') as [Hgt | Hle1]; eexists; split; try reflexivity.
  - repeat split.
    + rewrite !product_app, product_repeat. unfold product at 2. cbn [fold_right].
      rewrite Hk, <- Hprod. ring.
    + repeat (apply Forall_app; split); try assumption.
      constructor; [|constructor]. apply nsd_remaining_prime with i'; (assumption || lia).
    + apply StronglySorted_app; [assumption | repeat constructor |].
      intros a b Ha [<- | []]. pose proof (nsd_lower i' n' Hs' Hgt).
      apply in_app_or in Ha as [Ha | Ha].
      * apply repeat_spec in Ha as ->. lia.
      * rewrite Forall_forall in Hrange. specialize (Hrange a Ha). lia.
  - repeat split.
    + rewrite product_app, product_repeat, Hk, <- Hprod. replace n' with 1 by lia. ring.
    + apply Forall_app; split; assumption.
    + assumption.
Qed.

Lemma primeFactorize_total (x : Z) : exists l, primeFactorize x = Some l.
Proof.
  destruct (Z_lt_le_dec x 2) as [Hlo | Hlo].
  - exists []. unfold primeFactorize, primeFactorize_fuel. cbn [num_lt lit exact_integer].
    destruct (Z.ltb_spec x 2); [reflexivity | lia].
  - destruct (Z_lt_le_dec MAX_SAFE_INTEGER x) as [Hhi | Hhi].
    + exists []. unfold primeFactorize, primeFactorize_fuel. cbn [num_lt lit exact_integer].
      destruct (x <? 2); [reflexivity|].
      destruct (Z.ltb_spec MAX_SAFE_INTEGER x); [reflexivity | lia].
    + destruct (primeFactorize_fuel_correct (fuel_for x) x ltac:(lia) ltac:(lia)) as (l & Hl & _).
      exists l. exact Hl.
Qed.

(** *** A larger budget does not change a result *)

Section Budget.

Context {num : Type} `{JsNumber num}.

Lemma while_divisible_mono (fuel : nat) :
  forall (fuel' : nat) (d n : num) (fs : list num) r,
    (fuel <= fuel')%nat ->
    while_divisible fuel d n fs = Some r ->
    while_divisible fuel' d n fs = Some r.
Proof.
  induction fuel as [|fuel IH]; intros fuel' d n fs r Hle Hrun; [discriminate|].
  destruct fuel' as [|fuel']; [lia|]. cbn [while_divisible] in *.
  destruct (num_eq (num_rem n d) (lit 0)); [|assumption].
  apply IH; [lia | assumption].
Qed.

Lemma for_odd_mono (fuel : nat) :
  forall (fuel' : nat) (i n : num) (fs : list num) r,
    (fuel <= fuel')%nat ->
    for_odd fuel i n fs = Some r ->
    for_odd fuel' i n fs = Some r.
Proof.
  induction fuel as [|fuel IH]; intros fuel' i n fs r Hle Hrun; [discriminate|].
  destruct fuel' as [|fuel']; [lia|].
  cbn [for_odd] in *.
  destruct (le_sqrt i n); [|assumption].
  destruct (while_divisible (S fuel) i n fs) as [[n1 fs1]|] eqn:Hw; [|discriminate].
  rewrite (while_divisible_mono (S fuel) (S fuel') i n fs _ ltac:(lia) Hw).
  cbn [bind] in *. apply IH; [lia | assumption].
Qed.

Lemma primeFactorize_fuel_mono (fuel fuel' : nat) (x : num) (l : list num) :
  (fuel <= fuel')%nat ->
  primeFactorize_fuel fuel x = Some l ->
  primeFactorize_fuel fuel' x = Some l.
Proof.
  intros Hle. unfold primeFactorize_fuel.
  destruct (num_lt x (lit 2)); [trivial|].
  destruct (num_lt (lit MAX_SAFE_INTEGER) x); [trivial|].
  destruct (while_divisible fuel (lit 2) x []) as [[n0 fs0]|] eqn:Hw; [|discriminate].
  rewrite (while_divisible_mono fuel fuel' _ _ _ _ Hle Hw). cbn [bind].
  destruct (for_odd fuel (lit 3) n0 fs0) as [[n1 fs1]|] eqn:Hf; [|discriminate].
  rewrite (for_odd_mono fuel fuel' _ _ _ _ Hle Hf). trivial.
Qed.

End Budget.

(** *** The binary64 run follows the exact integer run *)

Lemma rem_test_exact (d n : Z) :
  0 < d < 2 ^ 53 -> 0 < n < 2 ^ 53 ->
  Binary64.eqb (Binary64.rem (Binary64.of_int n) (Binary64.of_int d)) (Binary64.of_int 0)
  = (Z.rem n d =? 0).
Proof.
  intros Hd Hn. rewrite rem_exact by in_range.
  pose proof (Z.rem_bound_pos n d ltac:(lia) ltac:(lia)).
  apply eqb_zero_exact. in_range.
Qed.

Lemma while_divisible_f64 (fuel : nat) :
  forall (d n : Z) (fs : list Z),
    2 <= d < 2 ^ 53 -> 1 <= n < 2 ^ 53 ->
    while_divisible fuel (Binary64.of_int d) (Binary64.of_int n) (map Binary64.of_int fs)
    = option_map lift (while_divisible fuel d n fs).
Proof.
  induction fuel as [|fuel IH]; intros d n fs Hd Hn; [reflexivity|].
  rewrite while_divisible_unfold. cbn [while_divisible].
  cbn [num_eq num_rem num_div lit binary64].
  rewrite rem_test_exact by lia.
  destruct (Z.eqb_spec (Z.rem n d) 0) as [Hr | Hr]; [|reflexivity].
  destruct (exact_quotient d n ltac:(lia) ltac:(lia) Hr) as [Hq Hqb].
  rewrite div_exact by in_range.
  rewrite <- IH by lia. rewrite map_app. reflexivity.
Qed.

Lemma guard_true_next (i n : Z) :
  0 < i < 2 ^ 53 -> 0 < n < 2 ^ 53 ->
  Binary64.sqrt_guard i n = true -> i + 2 <= 2 ^ 27.
Proof.
  intros Hi Hn Hg. pose proof (guard_true_bound i n Hi Hn Hg) as Hb.
  rewrite pow2_53_eq in *. change (2 ^ 27) with 134217728.
  destruct (Z_le_gt_dec (i + 2) 134217728) as [|G]; [assumption|exfalso].
  assert (134217727 * 134217727 <= i * i) by (apply Z.mul_le_mono_nonneg; lia). lia.
Qed.

Lemma for_odd_f64 (fuel : nat) :
  forall (i n : Z) (fs : list Z),
    3 <= i <= 2 ^ 27 -> 1 <= n < 2 ^ 53 ->
    for_odd fuel (Binary64.of_int i) (Binary64.of_int n) (map Binary64.of_int fs)
    = option_map lift (for_odd fuel i n fs).
Proof.
  induction fuel as [|fuel IH]; intros i n fs Hi Hn; [reflexivity|].
  assert (Ri : 0 < i < 2 ^ 53) by (rewrite pow2_53_eq; change (2 ^ 27) with 134217728 in Hi; lia).
  rewrite for_odd_unfold. cbn [for_odd].
  change (le_sqrt (Binary64.of_int i) (Binary64.of_int n)) with (Binary64.sqrt_guard i n).
  destruct (Binary64.sqrt_guard i n) eqn:Hg; [|reflexivity].
  rewrite while_divisible_f64 by lia.
  destruct (while_divisible (S fuel) i n fs) as [[n1 fs1]|] eqn:Hw; [|reflexivity].
  destruct (while_divisible_post (S fuel) i n fs n1 fs1 ltac:(lia) ltac:(lia) Hw)
    as (k & -> & Hk & Hn1 & Hnd).
  assert (Hp : 0 < i ^ Z.of_nat k) by (apply Z.pow_pos_nonneg; lia).
  pose proof (guard_true_next i n Ri ltac:(lia) Hg).
  cbn [option_map lift bind fst snd]. cbn [num_add lit binary64].
  rewrite add_exact by in_range.
  apply IH; [lia | nia].
Qed.

Lemma for_odd_range (fuel : nat) :
  forall (i n : Z) (fs : list Z) (n' : Z) (fs' : list Z),
    2 <= i -> 1 <= n ->
    for_odd fuel i n fs = Some (n', fs') -> 1 <= n' <= n.
Proof.
  induction fuel as [|fuel IH]; intros i n fs n' fs' Hi Hn Hrun; [discriminate|].
  rewrite for_odd_unfold in Hrun.
  destruct (Binary64.sqrt_guard i n).
  - destruct (while_divisible (S fuel) i n fs) as [[n1 fs1]|] eqn:Hw; [|discriminate].
    destruct (while_divisible_post (S fuel) i n fs n1 fs1 ltac:(lia) ltac:(lia) Hw)
      as (k & _ & Hk & Hn1 & _).
    assert (Hp : 0 < i ^ Z.of_nat k) by (apply Z.pow_pos_nonneg; lia).
    cbn [bind] in Hrun. apply IH in Hrun; try lia. nia.
  - injection Hrun as <- <-. lia.
Qed.

Lemma primeFactorize_f64_exact (fuel : nat) (x : Z) :
  1 <= x <= MAX_SAFE_INTEGER ->
  primeFactorize_f64 fuel (Binary64.of_int x)
  = option_map (map Binary64.of_int) (primeFactorize_fuel fuel x).
Proof.
  intros Hx. rewrite MAX_SAFE_INTEGER_eq in Hx.
  unfold primeFactorize_f64, primeFactorize_fuel.
  cbn [num_lt lit binary64 exact_integer].
  rewrite !ltb_exact by (rewrite ?MAX_SAFE_INTEGER_eq; in_range).
  destruct (x <? 2); [reflexivity|]. destruct (MAX_SAFE_INTEGER <? x); [reflexivity|].
  change (@nil Binary64.number) with (map Binary64.of_int []).
  rewrite while_divisible_f64 by lia.
  destruct (while_divisible fuel 2 x []) as [[n0 fs0]|] eqn:Hw; [|reflexivity].
  destruct (while_divisible_post fuel 2 x [] n0 fs0 ltac:(lia) ltac:(lia) Hw)
    as (k & _ & Hk & Hn0 & _).
  assert (Hp : 0 < 2 ^ Z.of_nat k) by (apply Z.pow_pos_nonneg; lia).
  assert (Hle : n0 <= x) by nia.
  cbn [option_map lift bind fst snd].
  rewrite for_odd_f64 by (change (2 ^ 27) with 134217728; lia).
  destruct (for_odd fuel 3 n0 fs0) as [[n1 fs1]|] eqn:Hf; [|reflexivity].
  pose proof (for_odd_range fuel 3 n0 fs0 n1 fs1 ltac:(lia) ltac:(lia) Hf) as Hn1.
  cbn [option_map lift bind fst snd].
  rewrite ltb_exact by in_range.
  destruct (1 <? n1); [rewrite map_app|]; reflexivity.
Qed.

(** The two validation tests of lines 8-9 on the binary64 number nearest
    to an integer outside the domain. *)
Lemma primeFactorize_f64_invalid (fuel : nat) (n : Z) :
  n < 2 \/ MAX_SAFE_INTEGER < n ->
  primeFactorize_f64 fuel (Binary64.of_int n) = Some [].
Proof.
  intros Hn. unfold primeFactorize_f64, primeFactorize_fuel.
  cbn [num_lt lit binary64].
  change (Binary64.of_int 2) with (S754_finite false 4503599627370496 (-51)).
  change (Binary64.of_int MAX_SAFE_INTEGER) with (S754_finite false 9007199254740991 0).
  destruct (Z_lt_le_dec n 0) as [Hneg | Hpos].
  - rewrite of_int_negative by assumption. reflexivity.
  - destruct (Z.eq_dec n 0) as [-> | N0]; [reflexivity|].
    destruct (Z.eq_dec n 1) as [-> | N1]; [reflexivity|].
    assert (Hbig : 2 ^ Binary64.prec <= n) by (unfold MAX_SAFE_INTEGER in Hn; rewrite pow2_53; lia).
    destruct (of_int_large n Hbig) as [-> | (m & e & -> & He)]; [reflexivity|].
    unfold Binary64.ltb, SFltb, SFcompare.
    destruct (Z.compare_spec e (-51)); try lia.
    destruct (Z.compare_spec 0 e); try lia. reflexivity.
Qed.

(** *** The code against the algorithm of the specification *)

Lemma while_divisible_spec (fuel : nat) :
  forall (d n : Z) (fs : list Z),
    2 <= d -> 1 <= n ->
    while_divisible fuel d n fs
    = ('(ds, r) <- Spec.divide_out fuel d n ;; Some (r, fs ++ ds)).
Proof.
  induction fuel as [|fuel IH]; intros d n fs Hd Hn; [reflexivity|].
  rewrite while_divisible_unfold. cbn [Spec.divide_out].
  rewrite Z.rem_mod_nonneg by lia.
  destruct (Z.eqb_spec (n mod d) 0) as [Hr | Hr].
  - rewrite <- Z.rem_mod_nonneg in Hr by lia.
    destruct (exact_quotient d n Hd Hn Hr) as [_ Hq].
    rewrite IH by lia.
    destruct (Spec.divide_out fuel d (n / d)) as [[ds r]|]; [|reflexivity].
    cbn [bind]. rewrite <- app_assoc. reflexivity.
  - cbn [bind]. rewrite app_nil_r. reflexivity.
Qed.

Lemma trial_inv_odd (i n : Z) : trial_inv i n -> Z.odd i = true /\ Z.odd n = true.
Proof.
  intros (Hn & Hi & Ho & Hs). split; [assumption|]. apply nsd_odd with i; [lia | assumption].
Qed.

Lemma trial_guard_exact (i n : Z) :
  trial_inv i n -> Binary64.sqrt_guard i n = (i * i <=? n).
Proof.
  intros Hinv. destruct (trial_inv_range i n Hinv). destruct (trial_inv_odd i n Hinv).
  apply guard_exact; assumption.
Qed.

Lemma for_odd_spec (fuel : nat) :
  forall (i n : Z) (fs : list Z),
    trial_inv i n ->
    ('(n', fs') <- for_odd fuel i n fs ;;
     Some (if 1 <? n' then fs' ++ [n'] else fs'))
    = (rest <- Spec.odd_candidates fuel i n ;; Some (fs ++ rest)).
Proof.
  induction fuel as [|fuel IH]; intros i n fs Hinv; [reflexivity|].
  rewrite for_odd_unfold. cbn [Spec.odd_candidates].
  rewrite <- (trial_guard_exact i n Hinv).
  pose proof Hinv as (Hn & Hi & _).
  destruct (Binary64.sqrt_guard i n) eqn:Hg.
  - rewrite while_divisible_spec by lia.
    destruct (Spec.divide_out (S fuel) i n) as [[ds r]|] eqn:Hd; [|reflexivity].
    cbn [bind].
    assert (Hw : while_divisible (S fuel) i n fs = Some (r, fs ++ ds))
      by (rewrite while_divisible_spec, Hd by lia; reflexivity).
    destruct (while_divisible_post (S fuel) i n fs r (fs ++ ds) ltac:(lia) ltac:(lia) Hw)
      as (k & _ & Hk & Hr & Hnd).
    destruct (trial_inv_step i n r k Hinv Hg Hk Hr Hnd) as [Hinv1 _].
    rewrite (IH (i + 2) r (fs ++ ds) Hinv1).
    destruct (Spec.odd_candidates fuel (i + 2) r); [|reflexivity].
    cbn [bind]. rewrite app_assoc. reflexivity.
  - cbn [bind]. destruct (1 <? n); [reflexivity | rewrite app_nil_r; reflexivity].
Qed.

Lemma primeFactorize_spec (x : Z) : primeFactorize x = Spec.factorize x.
Proof.
  unfold primeFactorize, primeFactorize_fuel, Spec.factorize.
  cbn [num_lt lit exact_integer].
  destruct (Z.ltb_spec x 2) as [|Hlo]; [reflexivity|].
  destruct (Z.ltb_spec MAX_SAFE_INTEGER x) as [|Hhi]; [reflexivity|].
  cbn [orb]. rewrite MAX_SAFE_INTEGER_eq in Hhi.
  rewrite while_divisible_spec by lia.
  destruct (Spec.divide_out (fuel_for x) 2 x) as [[twos r]|] eqn:Hd; [|reflexivity].
  cbn [bind app].
  assert (Hw : while_divisible (fuel_for x) 2 x [] = Some (r, twos))
    by (rewrite while_divisible_spec, Hd by lia; reflexivity).
  destruct (while_divisible_post (fuel_for x) 2 x [] r twos ltac:(lia) ltac:(lia) Hw)
    as (k & _ & Hk & Hr & Hnd).
  assert (Hp : 0 < 2 ^ Z.of_nat k) by (apply Z.pow_pos_nonneg; lia).
  assert (Hinv : trial_inv 3 r).
  { unfold trial_inv. repeat split; try in_range; try nia.
    intros d Hdr. replace d with 2 by lia. assumption. }
  apply (for_odd_spec (fuel_for x) 3 r twos Hinv).
Qed.

(** *** Every test the run arrives at *)

Lemma reaches_test_inv (x : Z) (t : test) (n d : Z) :
  2 <= x <= MAX_SAFE_INTEGER -> reaches x t n d -> test_inv x t n d.
Proof.
  intros Hx Hreach. rewrite MAX_SAFE_INTEGER_eq in Hx.
  induction Hreach as [ _ _ | n Hr IH Ht | n Hr IH Ht | n i Hr IH Hg
                      | n i Hr IH Ht | n i Hr IH Ht ];
    cbn [num_lt num_eq num_rem num_div num_add le_sqrt lit exact_integer] in *.
  - split; [lia | reflexivity].
  - destruct IH as [Hn _]. apply Z.eqb_eq in Ht.
    destruct (exact_quotient 2 n ltac:(lia) ltac:(lia) Ht). split; [lia | reflexivity].
  - destruct IH as [Hn _]. apply Z.eqb_neq in Ht.
    split; [assumption|]. unfold trial_inv. repeat split; try in_range.
    intros d Hd. replace d with 2 by lia. intros Hdiv. apply Ht.
    apply Z.rem_divide; [lia | assumption].
  - destruct IH as [Hn Hinv]. split; [assumption|].
    destruct (trial_inv_range i n Hinv) as [Ri Rn].
    pose proof (guard_true_bound i n Ri Rn Hg).
    destruct Hinv as (_ & Hi & Ho & Hs). repeat split; (assumption || lia).
  - destruct IH as [Hn (Hi & Hb & Ho & Hs)]. apply Z.eqb_eq in Ht.
    destruct (exact_quotient i n ltac:(lia) ltac:(lia) Ht) as [Hq Hqb].
    split; [lia|]. repeat split; try assumption.
    intros d Hd Hdiv. apply (Hs d Hd). rewrite Hq.
    apply Z.divide_mul_l. assumption.
  - destruct IH as [Hn (Hi & Hb & Ho & Hs)]. apply Z.eqb_neq in Ht.
    split; [assumption|].
    assert (Hnd : ~ (i | n)) by (intros Hdiv; apply Ht, Z.rem_divide; [lia | assumption]).
    assert (Hi2 : i + 2 <= 2 ^ 27).
    { change (2 ^ 53) with 9007199254740992 in *. change (2 ^ 27) with 134217728.
      destruct (Z_le_gt_dec (i + 2) 134217728) as [|G]; [assumption|exfalso].
      assert (134217727 * 134217727 <= i * i) by (apply Z.mul_le_mono_nonneg; lia). lia. }
    unfold trial_inv. repeat split; try in_range.
    + rewrite Z.odd_add, Ho. reflexivity.
    + apply nsd_step with n; try assumption. apply Z.divide_refl.
Qed.

Lemma reaches_f64_exact (x : Z) (t : test) (nf df : Binary64.number) :
  2 <= x <= MAX_SAFE_INTEGER ->
  reaches (Binary64.of_int x) t nf df ->
  exists n d : Z,
    nf = Binary64.of_int n /\ df = Binary64.of_int d /\ reaches x t n d.
Proof.
  intros Hx Hreach. pose proof Hx as Hx'. rewrite MAX_SAFE_INTEGER_eq in Hx'.
  induction Hreach as [ H2 HM | nf Hr IH Ht | nf Hr IH Ht | nf jf Hr IH Hg
                      | nf jf Hr IH Ht | nf jf Hr IH Ht ];
    cbn [num_lt num_eq num_rem num_div num_add le_sqrt lit binary64] in *.
  - exists x, 2. repeat split. constructor; cbn [num_lt lit exact_integer].
    + apply Z.ltb_ge. lia.
    + apply Z.ltb_ge. lia.
  - destruct IH as (n & d & -> & _ & Hz).
    destruct (reaches_test_inv x While2 n d Hx Hz) as [Hn ->].
    rewrite rem_test_exact in Ht by in_range.
    exists (n / 2), 2. repeat split.
    + apply Z.eqb_eq in Ht as Ht'. apply div_exact; in_range.
    + exact (reach_halve x n Hz Ht).
  - destruct IH as (n & d & -> & _ & Hz).
    destruct (reaches_test_inv x While2 n d Hx Hz) as [Hn ->].
    rewrite rem_test_exact in Ht by in_range.
    exists n, 3. repeat split. exact (reach_for x n Hz Ht).
  - destruct IH as (n & i & -> & -> & Hz).
    exists n, i. repeat split. exact (reach_body x n i Hz Hg).
  - destruct IH as (n & i & -> & -> & Hz).
    destruct (reaches_test_inv x WhileI n i Hx Hz) as [Hn (Hi & Hb & _)].
    assert (Ri : i < 2 ^ 53) by (change (2 ^ 53) with 9007199254740992 in *; nia).
    rewrite rem_test_exact in Ht by in_range.
    exists (n / i), i. repeat split.
    + apply Z.eqb_eq in Ht as Ht'. apply div_exact; in_range.
    + exact (reach_divide x n i Hz Ht).
  - destruct IH as (n & i & -> & -> & Hz).
    destruct (reaches_test_inv x WhileI n i Hx Hz) as [Hn (Hi & Hb & _)].
    assert (Ri : i < 2 ^ 53 - 2) by (change (2 ^ 53) with 9007199254740992 in *; nia).
    rewrite rem_test_exact in Ht by in_range.
    exists n, (i + 2). repeat split.
    + apply add_exact; in_range.
    + exact (reach_next x n i Hz Ht).
Qed.

(** *** The loops pass through reached tests only *)

Section Adequacy.

Context {num : Type} `{JsNumber num}.

Lemma while_divisible_reaches (x : num) (t : test) (fuel : nat) :
  forall (d n : num) (fs : list num) (n' : num) (fs' : list num),
    (t = While2 /\ d = lit 2) \/ t = WhileI ->
    reaches x t n d ->
    while_divisible fuel d n fs = Some (n', fs') ->
    reaches x t n' d /\ num_eq (num_rem n' d) (lit 0) = false.
Proof.
  induction fuel as [|fuel IH]; intros d n fs n' fs' Ht Hreach Hrun; [discriminate|].
  cbn [while_divisible] in Hrun.
  destruct (num_eq (num_rem n d) (lit 0)) eqn:Htest.
  - apply (IH d (num_div n d) (fs ++ [d]) n' fs' Ht); [|assumption].
    destruct Ht as [[-> ->] | ->]; constructor; assumption.
  - injection Hrun as <- <-. split; assumption.
Qed.

Lemma for_odd_reaches (x : num) (fuel : nat) :
  forall (i n : num) (fs : list num) (n' : num) (fs' : list num),
    reaches x ForTest n i ->
    for_odd fuel i n fs = Some (n', fs') ->
    exists i', reaches x ForTest n' i' /\ le_sqrt i' n' = false.
Proof.
  induction fuel as [|fuel IH]; intros i n fs n' fs' Hreach Hrun; [discriminate|].
  cbn [for_odd] in Hrun.
  destruct (le_sqrt i n) eqn:Hg.
  - destruct (while_divisible (S fuel) i n fs) as [[n1 fs1]|] eqn:Hw; [|discriminate].
    cbn [bind] in Hrun.
    destruct (while_divisible_reaches x WhileI (S fuel) i n fs n1 fs1
                (or_intror eq_refl) (reach_body x n i Hreach Hg) Hw) as [Hr1 Ht1].
    apply (IH _ _ _ _ _ (reach_next x n1 i Hr1 Ht1) Hrun).
  - injection Hrun as <- <-. exists i. split; assumption.
Qed.

Lemma primeFactorize_reaches (fuel : nat) (x : num) (l : list num) :
  num_lt x (lit 2) = false -> num_lt (lit MAX_SAFE_INTEGER) x = false ->
  primeFactorize_fuel fuel x = Some l ->
  exists (n i : num) (fs : list num),
    reaches x ForTest n i /\ le_sqrt i n = false
    /\ l = (if num_lt (lit 1) n then fs ++ [n] else fs).
Proof.
  intros H2 HM. unfold primeFactorize_fuel. rewrite H2, HM.
  destruct (while_divisible fuel (lit 2) x []) as [[n0 fs0]|] eqn:Hw; [|discriminate].
  cbn [bind].
  destruct (for_odd fuel (lit 3) n0 fs0) as [[n1 fs1]|] eqn:Hf; [|discriminate].
  cbn [bind]. intros [= <-].
  destruct (while_divisible_reaches x While2 fuel (lit 2) x [] n0 fs0
              (or_introl (conj eq_refl eq_refl)) (reach_entry x H2 HM) Hw) as [Hr0 Ht0].
  destruct (for_odd_reaches x fuel (lit 3) n0 fs0 n1 fs1 (reach_for x n0 Hr0 Ht0) Hf)
    as (i' & Hr1 & Hg1).
  exists n1, i', fs1. repeat split; assumption.
Qed.

End Adequacy.

(** *** [groupFactors] *)

Lemma group_loop_by_index (factors pre rest : list Z) (st : group_state) :
  factors = pre ++ rest ->
  fold_left (group_step factors) (seq (List.length pre) (List.length rest)) st
  = fold_left group_elem rest st.
Proof.
  revert pre st. induction rest as [|x rest IH]; intros pre st Hf; [reflexivity|].
  cbn [List.length seq fold_left].
  assert (Hstep : group_step factors st (List.length pre) = group_elem st x).
  { unfold group_step, group_elem. destruct st as [[grouped cur] e].
    rewrite Hf, app_nth2, Nat.sub_diag by lia. reflexivity. }
  rewrite Hstep.
  replace (S (List.length pre)) with (List.length (pre ++ [x]))
    by (rewrite length_app; cbn; lia).
  apply IH. rewrite <- app_assoc. exact Hf.
Qed.

Lemma groupFactors_cons (f0 : Z) (rest : list Z) :
  groupFactors (f0 :: rest) = close_group (fold_left group_elem rest ([], f0, 1)).
Proof.
  unfold groupFactors, close_group.
  replace (List.length (f0 :: rest) - 1)%nat with (List.length rest) by (cbn; lia).
  rewrite (group_loop_by_index (f0 :: rest) [f0] rest) by reflexivity.
  destruct (fold_left group_elem rest ([], f0, 1)) as [[g c] e]. reflexivity.
Qed.

Lemma expand_app (g1 g2 : list Group) : expand (g1 ++ g2) = expand g1 ++ expand g2.
Proof. unfold expand. apply flat_map_app. Qed.

Lemma expand_single (p e : Z) :
  expand [{| prime := p; exponent := e |}] = repeat p (Z.to_nat e).
Proof. unfold expand. cbn. apply app_nil_r. Qed.

Lemma group_loop_expand (rest : list Z) :
  forall (grouped : list Group) (cur e : Z),
    0 <= e ->
    expand (close_group (fold_left group_elem rest (grouped, cur, e)))
    = expand (close_group (grouped, cur, e)) ++ rest.
Proof.
  induction rest as [|x rest IH]; intros grouped cur e He; cbn [fold_left].
  - rewrite app_nil_r. reflexivity.
  - unfold group_elem at 2. destruct (Z.eqb_spec x cur) as [-> | Hne].
    + rewrite IH by lia. unfold close_group.
      rewrite !expand_app, !expand_single, <- !app_assoc. f_equal.
      replace (Z.to_nat (e + 1)) with (Z.to_nat e + 1)%nat by lia.
      rewrite repeat_app, <- app_assoc. reflexivity.
    + rewrite IH by lia. unfold close_group.
      rewrite !expand_app, !expand_single, <- !app_assoc. reflexivity.
Qed.

Lemma expand_groupFactors (factors : list Z) : expand (groupFactors factors) = factors.
Proof.
  destruct factors as [|f0 rest]; [reflexivity|].
  rewrite groupFactors_cons, group_loop_expand by lia.
  unfold close_group. cbn [app]. rewrite expand_single. reflexivity.
Qed.

Lemma group_loop_exponents (rest : list Z) :
  forall (grouped : list Group) (cur e : Z),
    1 <= e -> Forall (fun g => 1 <= exponent g) grouped ->
    Forall (fun g => 1 <= exponent g)
           (close_group (fold_left group_elem rest (grouped, cur, e))).
Proof.
  induction rest as [|x rest IH]; intros grouped cur e He Hg; cbn [fold_left].
  - unfold close_group. apply Forall_app. split; [assumption|]. repeat constructor. assumption.
  - unfold group_elem at 2. destruct (x =? cur).
    + apply IH; [lia | assumption].
    + apply IH; [lia|]. apply Forall_app. split; [assumption|]. repeat constructor. assumption.
Qed.

Lemma groupFactors_exponents (factors : list Z) :
  Forall (fun g => 1 <= exponent g) (groupFactors factors).
Proof.
  destruct factors as [|f0 rest]; [constructor|].
  rewrite groupFactors_cons. apply group_loop_exponents; [lia | constructor].
Qed.

(** *** The display string *)

Lemma render_group_spec (g : Group) :
  1 <= exponent g -> render_group g = spec_render_group g.
Proof.
  intros He. unfold render_group, spec_render_group.
  destruct (Z.ltb_spec 1 (exponent g)), (Z.eqb_spec (exponent g) 1); try reflexivity; lia.
Qed.

Lemma formatFactorization_cons (g g' : Group) (rest : list Group) :
  formatFactorization (g :: g' :: rest)
  = (render_group g ++ " × " ++ formatFactorization (g' :: rest))%string.
Proof. reflexivity. Qed.

(** *** The history *)

Lemma filter_index_remove {A : Type} (l : list A) :
  forall (k : nat) (index : Z),
    map fst (filter (fun p : A * nat => negb (Z.of_nat (snd p) =? index))
                    (combine l (seq k (List.length l))))
    = if (Z.of_nat k <=? index) && (index <? Z.of_nat (k + List.length l))
      then firstn (Z.to_nat index - k) l ++ skipn (S (Z.to_nat index - k)) l
      else l.
Proof.
  induction l as [|a l IH]; intros k index; cbn [List.length seq combine filter snd].
  - destruct (_ && _); cbn; destruct (Z.to_nat index - k)%nat; reflexivity.
  - rewrite <- Nat.add_succ_comm.
    destruct (Z.eqb_spec (Z.of_nat k) index) as [E | NE]; cbn [negb map fst].
    + rewrite IH. subst index.
      destruct (Z.leb_spec (Z.of_nat (S k)) (Z.of_nat k)); [lia|]. cbn [andb].
      destruct (Z.leb_spec (Z.of_nat k) (Z.of_nat k)); [|lia].
      destruct (Z.ltb_spec (Z.of_nat k) (Z.of_nat (S k + List.length l))); [|lia].
      cbn [andb]. rewrite Nat2Z.id, Nat.sub_diag. reflexivity.
    + rewrite IH.
      destruct (Z.leb_spec (Z.of_nat (S k)) index), (Z.leb_spec (Z.of_nat k) index);
        try lia; cbn [andb]; [|reflexivity].
      destruct (Z.ltb_spec index (Z.of_nat (S k + List.length l))); [|reflexivity].
      replace (Z.to_nat index - k)%nat with (S (Z.to_nat index - S k)) by lia.
      reflexivity.
Qed.

Lemma history_remove_in_range (index : Z) (prev : list HistoryRecord) :
  0 <= index < Z.of_nat (List.length prev) ->
  history_remove index prev
  = firstn (Z.to_nat index) prev ++ skipn (S (Z.to_nat index)) prev.
Proof.
  intros Hi. unfold history_remove, filter_index. cbn [fst snd].
  rewrite (filter_index_remove prev 0 index). cbn [Nat.add Z.of_nat].
  destruct (Z.leb_spec 0 index); [|lia].
  destruct (Z.ltb_spec index (Z.of_nat (List.length prev))); [|lia].
  cbn [andb]. rewrite Nat.sub_0_r. reflexivity.
Qed.

Lemma history_remove_out_of_range (index : Z) (prev : list HistoryRecord) :
  ~ (0 <= index < Z.of_nat (List.length prev)) ->
  history_remove index prev = prev.
Proof.
  intros Hi. unfold history_remove, filter_index. cbn [fst snd].
  rewrite (filter_index_remove prev 0 index). cbn [Nat.add Z.of_nat].
  destruct (Z.leb_spec 0 index), (Z.ltb_spec index (Z.of_nat (List.length prev)));
    try reflexivity; lia.
Qed.

(** *** The claims about [primeFactorize] *)

(** C1.  For every integer [n] with [2 <= n <= MAX_SAFE_INTEGER],
    [primeFactorize n] returns a list whose product is [n], whose elements
    are all prime and which is sorted in ascending order.  The same list
    is what the binary64 execution returns, with any budget of at least
    [fuel_for n] steps. *)
Theorem primeFactorize_product_prime_sorted (n : Z) :
  2 <= n <= MAX_SAFE_INTEGER ->
  exists l : list Z,
    primeFactorize n = Some l
    /\ product l = n
    /\ Forall Z.prime l
    /\ Sorted Z.le l
    /\ forall fuel : nat, (fuel_for n <= fuel)%nat ->
         primeFactorize_f64 fuel (Binary64.of_int n) = Some (map Binary64.of_int l).
Proof.
  intros Hn.
  destruct (primeFactorize_fuel_correct (fuel_for n) n Hn ltac:(lia))
    as (l & Hrun & Hprod & Hprime & Hsorted).
  exists l. repeat split; try assumption.
  - apply StronglySorted_Sorted. assumption.
  - intros fuel Hfuel. rewrite primeFactorize_f64_exact by lia.
    rewrite (primeFactorize_fuel_mono (fuel_for n) fuel n l Hfuel Hrun). reflexivity.
Qed.

Lemma primeFactorize_product_prime_sorted_witness :
  2 <= 360 <= MAX_SAFE_INTEGER /\
  exists l : list Z,
    primeFactorize 360 = Some l /\ product l = 360 /\ Forall Z.prime l /\ Sorted Z.le l
    /\ forall fuel : nat, (fuel_for 360 <= fuel)%nat ->
         primeFactorize_f64 fuel (Binary64.of_int 360) = Some (map Binary64.of_int l).
Proof.
  split; [unfold MAX_SAFE_INTEGER; lia|].
  apply (primeFactorize_product_prime_sorted 360). unfold MAX_SAFE_INTEGER. lia.
Defined.

(** C2.  For every integer [n] below 2 (1, 0 and the negative integers
    included) and every integer [n] above [MAX_SAFE_INTEGER],
    [primeFactorize n] returns the empty list; it does so before any loop
    is entered, so with every budget, the empty one included: there is no
    other outcome, exception or divergence, for either kind of invalid
    input.  The binary64 execution does the same on the number nearest to
    [n]. *)
Theorem primeFactorize_invalid_empty (n : Z) :
  n < 2 \/ MAX_SAFE_INTEGER < n ->
  primeFactorize n = Some []
  /\ (forall fuel : nat, primeFactorize_fuel fuel n = Some [])
  /\ (forall fuel : nat, primeFactorize_f64 fuel (Binary64.of_int n) = Some []).
Proof.
  intros Hn.
  assert (H : forall fuel : nat, primeFactorize_fuel fuel n = Some []).
  { intros fuel. unfold primeFactorize_fuel. cbn [num_lt lit exact_integer].
    destruct (Z.ltb_spec n 2); [reflexivity|].
    destruct (Z.ltb_spec MAX_SAFE_INTEGER n); [reflexivity | lia]. }
  split; [apply H|]. split; [exact H|].
  intros fuel. apply primeFactorize_f64_invalid, Hn.
Qed.

Lemma primeFactorize_invalid_empty_witness :
  (-5 < 2 \/ MAX_SAFE_INTEGER < -5)
  /\ primeFactorize (-5) = Some []
  /\ (forall fuel : nat, primeFactorize_fuel fuel (-5) = Some [])
  /\ (forall fuel : nat, primeFactorize_f64 fuel (Binary64.of_int (-5)) = Some []).
Proof.
  split; [left; lia|]. apply (primeFactorize_invalid_empty (-5)). left. lia.
Defined.

(** C3.  For every integer [x] in the valid domain, [primeFactorize x]
    returns exactly what the algorithm of the specification returns
    (divide out 2 while divisible; then odd candidates from 3 while
    [d * d <= remaining], dividing out each occurrence before advancing;
    finally the remaining value if it exceeds 1).  In particular, at every
    evaluation of the loop condition that a run on [x] arrives at, the
    code's [i <= Math.sqrt(n)] and the specification's [i * i <= n] have
    the same truth value. *)
Theorem primeFactorize_refines_spec (x : Z) :
  2 <= x <= MAX_SAFE_INTEGER ->
  (exists l : list Z, primeFactorize x = Some l /\ Spec.factorize x = Some l)
  /\ forall n i : Z,
       reaches x ForTest n i -> Binary64.sqrt_guard i n = (i * i <=? n).
Proof.
  intros Hx. split.
  - destruct (primeFactorize_total x) as [l Hl]. exists l.
    split; [assumption|]. rewrite <- primeFactorize_spec. assumption.
  - intros n i Hreach.
    destruct (reaches_test_inv x ForTest n i Hx Hreach) as [_ Hinv].
    apply trial_guard_exact. exact Hinv.
Qed.

Lemma primeFactorize_refines_spec_witness :
  2 <= 45 <= MAX_SAFE_INTEGER
  /\ (exists l : list Z, primeFactorize 45 = Some l /\ Spec.factorize 45 = Some l)
  /\ Binary64.sqrt_guard 3 45 = (3 * 3 <=? 45).
Proof.
  assert (Hx : 2 <= 45 <= MAX_SAFE_INTEGER) by (unfold MAX_SAFE_INTEGER; lia).
  destruct (primeFactorize_refines_spec 45 Hx) as [Hrun Hguard].
  split; [exact Hx|]. split; [exact Hrun|].
  apply (Hguard 45 3).
  exact (reach_for 45 45 (reach_entry 45 eq_refl eq_refl) eq_refl).
Defined.

(** The remaining value is odd at every test of the [for] loop, and the
    agreement of the two loop conditions rests on it: on an even value one
    less than an odd square, the rounded square root reaches the
    candidate. *)
Lemma sqrt_guard_rounds_up :
  Binary64.sqrt_guard 94906265 9007199136250224 = true
  /\ (94906265 * 94906265 <=? 9007199136250224) = false.
Proof. split; vm_compute; reflexivity. Qed.

(** C4.  For every integer [x] in the valid domain, the binary64
    execution of [primeFactorize] loses no precision.  Its result is the
    image of the result computed with exact integers, with every budget.
    And at every test the binary64 run arrives at, the current value and
    the divisor are exact integers [n] and [d] with [1 <= n <= x]; the
    modulus test [n % d === 0] decides whether [d] divides [n]; when it
    does, which is the only case where the division is performed, the
    binary64 quotient is the integer [n / d]; and the comparison
    [i <= Math.sqrt(n)] decides [i * i <= n]. *)
Theorem primeFactorize_exact_arithmetic (x : Z) :
  2 <= x <= MAX_SAFE_INTEGER ->
  (forall fuel : nat,
      primeFactorize_f64 fuel (Binary64.of_int x)
      = option_map (map Binary64.of_int) (primeFactorize_fuel fuel x))
  /\ forall (t : test) (nf df : Binary64.number),
       reaches (Binary64.of_int x) t nf df ->
       exists n d : Z,
         nf = Binary64.of_int n /\ df = Binary64.of_int d
         /\ 1 <= n <= x /\ 2 <= d
         /\ match t with
            | ForTest =>
                Binary64.leb df (Binary64.Math_sqrt nf) = (d * d <=? n)
            | While2 | WhileI =>
                Binary64.eqb (Binary64.rem nf df) (Binary64.of_int 0) = (n mod d =? 0)
                /\ (n mod d = 0 ->
                    Binary64.div nf df = Binary64.of_int (n / d) /\ n = d * (n / d))
            end.
Proof.
  intros Hx. split.
  - intros fuel. apply primeFactorize_f64_exact. lia.
  - intros t nf df Hreach.
    destruct (reaches_f64_exact x t nf df Hx Hreach) as (n & d & -> & -> & Hz).
    pose proof (reaches_test_inv x t n d Hx Hz) as [Hn Ht].
    rewrite MAX_SAFE_INTEGER_eq in Hx.
    assert (Hd : 2 <= d < 2 ^ 53).
    { destruct t; cbn in Ht.
      - subst d. in_range.
      - destruct Ht as (_ & Hi & _). in_range.
      - destruct Ht as (Hi & Hb & _). change (2 ^ 53) with 9007199254740992 in *. nia. }
    exists n, d. repeat split; try lia.
    assert (Hdiv : Binary64.eqb (Binary64.rem (Binary64.of_int n) (Binary64.of_int d))
                     (Binary64.of_int 0) = (n mod d =? 0)
                   /\ (n mod d = 0 ->
                       Binary64.div (Binary64.of_int n) (Binary64.of_int d)
                       = Binary64.of_int (n / d) /\ n = d * (n / d))).
    { split.
      - rewrite rem_test_exact, Z.rem_mod_nonneg by in_range. reflexivity.
      - intros Hm. rewrite <- Z.rem_mod_nonneg in Hm by lia.
        destruct (exact_quotient d n ltac:(lia) ltac:(lia) Hm) as [Hq _].
        split; [apply div_exact; in_range | lia]. }
    destruct t; try exact Hdiv.
    apply (trial_guard_exact d n Ht).
Qed.

Lemma primeFactorize_exact_arithmetic_witness :
  2 <= 45 <= MAX_SAFE_INTEGER
  /\ (forall fuel : nat,
        primeFactorize_f64 fuel (Binary64.of_int 45)
        = option_map (map Binary64.of_int) (primeFactorize_fuel fuel 45))
  /\ exists n d : Z,
       Binary64.of_int 45 = Binary64.of_int n /\ Binary64.of_int 3 = Binary64.of_int d
       /\ 1 <= n <= 45 /\ 2 <= d
       /\ Binary64.leb (Binary64.of_int 3) (Binary64.Math_sqrt (Binary64.of_int 45))
          = (d * d <=? n).
Proof.
  assert (Hx : 2 <= 45 <= MAX_SAFE_INTEGER) by (unfold MAX_SAFE_INTEGER; lia).
  destruct (primeFactorize_exact_arithmetic 45 Hx) as [Hrun Htests].
  split; [exact Hx|]. split; [exact Hrun|].
  apply (Htests ForTest (Binary64.of_int 45) (Binary64.of_int 3)).
  exact (reach_for (Binary64.of_int 45) (Binary64.of_int 45)
           (reach_entry (Binary64.of_int 45) eq_refl eq_refl) eq_refl).
Defined.

(** *** The claims about grouping, formatting and the history *)

(** C5.  [groupFactors] maps the empty list to the empty list, and for
    every list of integers, concatenating each group's prime repeated
    exponent times, in output order, gives back the input list; in
    particular so for the list returned by [primeFactorize n], for every
    [n]. *)
Theorem groupFactors_expand :
  groupFactors [] = []
  /\ (forall factors : list Z, expand (groupFactors factors) = factors)
  /\ (forall n : Z,
        option_map (fun l => expand (groupFactors l)) (primeFactorize n)
        = primeFactorize n).
Proof.
  split; [reflexivity|]. split; [exact expand_groupFactors|].
  intros n. destruct (primeFactorize n) as [l|]; [|reflexivity].
  cbn [option_map]. rewrite expand_groupFactors. reflexivity.
Qed.

(** C6.  For every sequence of grouped factors (pairs whose exponent is a
    multiplicity, hence at least 1), the display string renders each group
    as the bare prime when its exponent is 1 and as prime^exponent
    otherwise, and joins the groups with " × " in the order of the
    sequence.  This covers every output of [groupFactors].  For 12 the
    factors are [2; 2; 3], the groups (2, 2) and (3, 1), the string
    "2^2 × 3". *)
Theorem formatFactorization_render (grouped : list Group) :
  Forall (fun g => 1 <= exponent g) grouped ->
  formatFactorization grouped = spec_format grouped
  /\ (forall fs : list Z,
        formatFactorization (groupFactors fs) = spec_format (groupFactors fs))
  /\ primeFactorize 12 = Some [2; 2; 3]
  /\ groupFactors [2; 2; 3]
     = [{| prime := 2; exponent := 2 |}; {| prime := 3; exponent := 1 |}]
  /\ formatFactorization (groupFactors [2; 2; 3]) = "2^2 × 3"%string.
Proof.
  assert (H : forall gs : list Group,
             Forall (fun g => 1 <= exponent g) gs ->
             formatFactorization gs = spec_format gs).
  { intros gs Hexp. induction Hexp as [|g rest Hg Hrest IH]; [reflexivity|].
    destruct rest as [|g' rest].
    - unfold formatFactorization. cbn [map String.concat spec_format].
      apply render_group_spec, Hg.
    - rewrite formatFactorization_cons, IH, render_group_spec by assumption.
      reflexivity. }
  intros Hexp. split; [apply H, Hexp|]. split.
  - intros fs. apply H, groupFactors_exponents.
  - repeat split; vm_compute; reflexivity.
Qed.

Lemma formatFactorization_render_witness :
  Forall (fun g => 1 <= exponent g)
         [{| prime := 2; exponent := 2 |}; {| prime := 5; exponent := 2 |}]
  /\ formatFactorization [{| prime := 2; exponent := 2 |}; {| prime := 5; exponent := 2 |}]
     = spec_format [{| prime := 2; exponent := 2 |}; {| prime := 5; exponent := 2 |}].
Proof.
  assert (H : Forall (fun g => 1 <= exponent g)
                [{| prime := 2; exponent := 2 |}; {| prime := 5; exponent := 2 |}])
    by (repeat constructor; cbn; lia).
  split; [exact H|].
  exact (proj1 (formatFactorization_render
                  [{| prime := 2; exponent := 2 |}; {| prime := 5; exponent := 2 |}]
                  H)).
Defined.

(** C7.  For every history and every index: if the index is in range,
    [removeFromHistory] deletes exactly the record at that position (the
    records before it stay where they are, every record after it moves
    down by one position, in the same order, and the length drops by
    one); if the index is out of range, the history is unchanged. *)
Theorem removeFromHistory_shift (index : Z) (s : AppState) :
  let prev := calculationHistory s in
  let next := calculationHistory (removeFromHistory index s) in
  (0 <= index < Z.of_nat (List.length prev) ->
     List.length next = (List.length prev - 1)%nat
     /\ (forall j : nat, (j < Z.to_nat index)%nat -> nth_error next j = nth_error prev j)
     /\ (forall j : nat, (Z.to_nat index <= j)%nat ->
           nth_error next j = nth_error prev (S j)))
  /\ (~ (0 <= index < Z.of_nat (List.length prev)) -> next = prev).
Proof.
  cbv zeta. unfold removeFromHistory. cbn [calculationHistory setCalculationHistory].
  set (prev := calculationHistory s). split.
  - intros Hi. rewrite history_remove_in_range by assumption.
    set (i := Z.to_nat index). assert (Hlt : (i < List.length prev)%nat) by lia.
    repeat split.
    + rewrite length_app, length_firstn, length_skipn. lia.
    + intros j Hj. rewrite nth_error_app1 by (rewrite length_firstn; lia).
      rewrite nth_error_firstn. destruct (Nat.ltb_spec j i); [reflexivity | lia].
    + intros j Hj. rewrite nth_error_app2 by (rewrite length_firstn; lia).
      rewrite length_firstn, nth_error_skipn. f_equal. lia.
  - apply history_remove_out_of_range.
Qed.

Lemma removeFromHistory_shift_witness :
  let s := setCalculationHistory
             (fun _ => [{| number := 12; factorization := "2^2 × 3" |};
                        {| number := 17; factorization := "17" |}])
             (initialState false) in
  0 <= 0 < Z.of_nat (List.length (calculationHistory s))
  /\ List.length (calculationHistory (removeFromHistory 0 s))
     = (List.length (calculationHistory s) - 1)%nat
  /\ calculationHistory (removeFromHistory 5 s) = calculationHistory s.
Proof.
  cbv zeta.
  set (s := setCalculationHistory _ (initialState false)).
  assert (Hin : 0 <= 0 < Z.of_nat (List.length (calculationHistory s))) by (cbn; lia).
  assert (Hout : ~ (0 <= 5 < Z.of_nat (List.length (calculationHistory s)))) by (cbn; lia).
  split; [exact Hin|]. split.
  - exact (proj1 (proj1 (removeFromHistory_shift 0 s) Hin)).
  - exact (proj2 (removeFromHistory_shift 5 s) Hout).
Defined.

(** C8.  From the empty history, appending (12, "2^2 × 3"), then
    (17, "17"), then removing at index 0 leaves exactly the record
    (17, "17"), at position 0; the same through the handlers, on the
    inputs "12" and "17". *)
Theorem history_scenario :
  history_remove 0 (history_append 17 "17" (history_append 12 "2^2 × 3" []))
  = [{| number := 17; factorization := "17" |}]
  /\ (s1 <- handle parseInt_decimal ClickFactorize
              (setInputValue "12" (initialState false)) ;;
      s2 <- handle parseInt_decimal ClickFactorize (setInputValue "17" s1) ;;
      s3 <- handle parseInt_decimal (ClickRemove 0) s2 ;;
      Some (calculationHistory s1, calculationHistory s2, calculationHistory s3))
     = Some ([{| number := 12; factorization := "2^2 × 3" |}],
             [{| number := 12; factorization := "2^2 × 3" |};
              {| number := 17; factorization := "17" |}],
             [{| number := 17; factorization := "17" |}]).
Proof. split; vm_compute; reflexivity. Qed.

(** C9.  [handleFactorize] appends a history record exactly when the
    factorization succeeds: when the parsed input is not a number, is
    below 2 or is above [MAX_SAFE_INTEGER], it sets an error and leaves
    the history as it was; otherwise it clears the error and appends one
    record, made of the number and of the display string of its
    factorization.  And every event leaves each record of the history
    untouched: the new history is the old one, the old one with one
    record appended, or the old one with one record removed. *)
Theorem handleFactorize_history (parseInt : string -> parsed) :
  (forall s : AppState,
     exists s' : AppState,
       handleFactorize parseInt s = Some s'
       /\ match parseInt (inputValue s) with
          | NaN =>
              error s' <> None /\ calculationHistory s' = calculationHistory s
          | Num n =>
              if (n <? 2) || (MAX_SAFE_INTEGER <? n)
              then error s' <> None /\ calculationHistory s' = calculationHistory s
              else error s' = None
                   /\ exists l : list Z,
                        primeFactorize n = Some l
                        /\ calculationHistory s'
                           = calculationHistory s
                               ++ [{| number := n;
                                      factorization :=
                                        formatFactorization (groupFactors l) |}]
          end)
  /\ (forall (e : event) (s : AppState),
        match handle parseInt e s with
        | Some s' =>
            let old := calculationHistory s in
            let new := calculationHistory s' in
            new = old
            \/ (exists r : HistoryRecord, new = old ++ [r])
            \/ (exists i : nat,
                  (i < List.length old)%nat
                  /\ new = firstn i old ++ skipn (S i) old)
        | None => False
        end).
Proof.
  assert (Hfirst : forall s : AppState,
     exists s' : AppState,
       handleFactorize parseInt s = Some s'
       /\ match parseInt (inputValue s) with
          | NaN =>
              error s' <> None /\ calculationHistory s' = calculationHistory s
          | Num n =>
              if (n <? 2) || (MAX_SAFE_INTEGER <? n)
              then error s' <> None /\ calculationHistory s' = calculationHistory s
              else error s' = None
                   /\ exists l : list Z,
                        primeFactorize n = Some l
                        /\ calculationHistory s'
                           = calculationHistory s
                               ++ [{| number := n;
                                      factorization :=
                                        formatFactorization (groupFactors l) |}]
          end).
  { intros s. unfold handleFactorize.
    destruct (parseInt (inputValue s)) as [|n].
    - eexists. split; [reflexivity|]. cbn. split; [discriminate | reflexivity].
    - destruct (n <? 2).
      + eexists. split; [reflexivity|]. cbn. split; [discriminate | reflexivity].
      + destruct (MAX_SAFE_INTEGER <? n).
        * eexists. split; [reflexivity|]. cbn. split; [discriminate | reflexivity].
        * destruct (primeFactorize_total n) as [l Hl]. rewrite Hl. cbn [bind orb].
          eexists. split; [reflexivity|]. cbn. split; [reflexivity|].
          exists l. split; reflexivity. }
  split; [exact Hfirst|].
  intros e s. destruct e as [text | | | | dark | n | index]; cbn [handle].
  - left. reflexivity.
  - destruct (Hfirst s) as (s' & -> & Hs').
    destruct (parseInt (inputValue s)) as [|n].
    + left. apply Hs'.
    + destruct ((n <? 2) || (MAX_SAFE_INTEGER <? n)).
      * left. apply Hs'.
      * right. left. destruct Hs' as (_ & l & _ & ->). eexists. reflexivity.
  - left. reflexivity.
  - left. reflexivity.
  - left. reflexivity.
  - unfold recalculate. destruct (primeFactorize_total n) as [l ->]. cbn [bind].
    left. reflexivity.
  - cbv zeta. unfold removeFromHistory. cbn [calculationHistory setCalculationHistory].
    set (old := calculationHistory s).
    destruct (Z_le_gt_dec 0 index) as [Hlo|Hlo];
      [destruct (Z_lt_le_dec index (Z.of_nat (List.length old))) as [Hhi|Hhi]|].
    + right. right. exists (Z.to_nat index). split; [lia|].
      apply history_remove_in_range. lia.
    + left. apply history_remove_out_of_range. lia.
    + left. apply history_remove_out_of_range. lia.
Qed.

(** C10.  For every number, [recalculate] leaves the history unchanged;
    it overwrites the input value, the current number, the factors, the
    grouped factors and the error with those of the recomputed
    factorization. *)
Theorem recalculate_frame (n : Z) (s : AppState) :
  exists (s' : AppState) (l : list Z),
    recalculate n s = Some s'
    /\ calculationHistory s' = calculationHistory s
    /\ primeFactorize n = Some l
    /\ inputValue s' = number_to_string n
    /\ currentNumber s' = Some (Num n)
    /\ factors s' = l
    /\ groupedFactors s' = groupFactors l
    /\ error s' = None
    /\ darkMode s' = darkMode s.
Proof.
  destruct (primeFactorize_total n) as [l Hl].
  unfold recalculate. rewrite Hl. cbn [bind].
  eexists. exists l. repeat split; reflexivity || assumption.
Qed.

(** ** Part III. Further properties of the code *)

(** *** [primeFactorize]: the result is the prime factorization *)

Lemma product_primes_pos (l : list Z) : Forall Z.prime l -> 1 <= product l.
Proof.
  induction 1 as [|p l Hp _ IH]; simpl; [lia|].
  apply Z.prime_ge_2 in Hp. nia.
Qed.

Lemma product_primes_nil (l : list Z) :
  Forall Z.prime l -> product l = 1 -> l = [].
Proof.
  intros Hl Hprod. destruct Hl as [|p l Hp Hl]; [reflexivity|].
  simpl in Hprod. apply Z.prime_ge_2 in Hp.
  pose proof (product_primes_pos l Hl). nia.
Qed.

Lemma prime_divides_product (p : Z) (l : list Z) :
  Z.prime p -> Forall Z.prime l -> (p | product l) -> In p l.
Proof.
  intros Hp. induction 1 as [|q l Hq Hl IH]; simpl; intros Hd.
  - apply Z.divide_1_r_nonneg in Hd; apply Z.prime_ge_2 in Hp; lia.
  - apply Z.divide_prime_mul in Hd; [|assumption].
    destruct Hd as [Hd|Hd].
    + left. symmetry. now apply Z.divide_prime_prime.
    + right. now apply IH.
Qed.

Lemma prime_lists_permutation (l1 : list Z) :
  forall l2, Forall Z.prime l1 -> Forall Z.prime l2 ->
  product l1 = product l2 -> Permutation l1 l2.
Proof.
  induction l1 as [|p l1 IH]; intros l2 H1 H2 Hprod.
  - simpl in Hprod. symmetry in Hprod.
    apply product_primes_nil in Hprod; [subst; constructor | assumption].
  - inversion H1 as [|? ? Hp H1']; subst.
    assert (Hin : In p l2).
    { apply prime_divides_product; try assumption.
      rewrite <- Hprod. simpl. now exists (product l1); rewrite Z.mul_comm. }
    apply in_split in Hin. destruct Hin as (la & lb & ->).
    apply Permutation_cons_app. apply IH; [assumption | |].
    + apply Forall_app in H2. destruct H2 as [Ha Hb].
      inversion Hb; subst. apply Forall_app. now split.
    + rewrite product_app in *. simpl in Hprod.
      apply Z.prime_ge_2 in Hp. nia.
Qed.

Lemma sorted_permutation_eq (l1 : list Z) :
  forall l2, StronglySorted Z.le l1 -> StronglySorted Z.le l2 ->
  Permutation l1 l2 -> l1 = l2.
Proof.
  induction l1 as [|a l1 IH]; intros l2 S1 S2 HP.
  - now apply Permutation_nil in HP.
  - destruct l2 as [|b l2].
    + apply Permutation_sym, Permutation_nil in HP. discriminate.
    + inversion S1 as [|? ? S1' F1]; inversion S2 as [|? ? S2' F2]; subst.
      assert (a = b).
      { assert (Ha : In a (b :: l2)) by (eapply Permutation_in; [exact HP | now left]).
        assert (Hb : In b (a :: l1))
          by (eapply Permutation_in; [apply Permutation_sym; exact HP | now left]).
        rewrite Forall_forall in F1, F2.
        destruct Ha as [Ha|Ha]; [now symmetry|].
        destruct Hb as [Hb|Hb]; [assumption|].
        specialize (F1 _ Hb). specialize (F2 _ Ha). lia. }
      subst b. f_equal. apply IH; try assumption.
      now apply Permutation_cons_inv in HP.
Qed.

Lemma primeFactorize_domain (n : Z) :
  2 <= n <= MAX_SAFE_INTEGER ->
  exists l, primeFactorize n = Some l /\ product l = n /\ Forall Z.prime l
            /\ StronglySorted Z.le l.
Proof.
  intros Hn. apply primeFactorize_fuel_correct; [assumption | lia].
Qed.

Lemma primeFactorize_outside (n : Z) :
  n < 2 \/ MAX_SAFE_INTEGER < n -> primeFactorize n = Some [].
Proof.
  intros Hn. unfold primeFactorize, primeFactorize_fuel. simpl.
  destruct (Z.ltb_spec n 2); [reflexivity|].
  destruct (Z.ltb_spec MAX_SAFE_INTEGER n); [reflexivity|]. lia.
Qed.

Lemma primeFactorize_canonical (l : list Z) :
  Forall Z.prime l -> StronglySorted Z.le l -> product l <= MAX_SAFE_INTEGER ->
  primeFactorize (product l) = Some l.
Proof.
  intros Hp Hs Hmax.
  pose proof (product_primes_pos l Hp) as Hpos.
  destruct (Z.eq_dec (product l) 1) as [H1|H1].
  - rewrite (product_primes_nil l Hp H1). reflexivity.
  - destruct (primeFactorize_domain (product l)) as (l' & Hrun & Hprod & Hp' & Hs'); [lia|].
    rewrite Hrun. f_equal. apply sorted_permutation_eq; try assumption.
    now apply prime_lists_permutation.
Qed.

(** X1. [primeFactorize] inverts the product: for every ascending list
    of primes whose product does not exceed [MAX_SAFE_INTEGER], factorizing
    the product gives back exactly that list.  With the product property of
    the result this makes the result the unique ascending list of primes
    with product [n]. *)
Theorem primeFactorize_of_product (l : list Z) :
  Forall Z.prime l -> Sorted Z.le l -> product l <= MAX_SAFE_INTEGER ->
  primeFactorize (product l) = Some l.
Proof.
  intros Hp Hs Hmax. apply primeFactorize_canonical; try assumption.
  apply Sorted_StronglySorted; [|assumption].
  intros x y z; apply Z.le_trans.
Qed.

Lemma prime_3 : Z.prime 3.
Proof. split; [lia|]. intros n Hn [k Hk]. assert (n = 2) by lia. subst. lia. Qed.

Lemma prime_5 : Z.prime 5.
Proof.
  split; [lia|]. intros n Hn [k Hk].
  assert (n = 2 \/ n = 3 \/ n = 4) as [->|[->| ->]] by lia; lia.
Qed.

Lemma primeFactorize_of_product_witness :
  primeFactorize (product [2; 2; 3; 5]) = Some [2; 2; 3; 5].
Proof.
  apply primeFactorize_of_product.
  - repeat apply Forall_cons; auto using Z.prime_2, prime_3, prime_5.
  - repeat first [apply Sorted_cons | apply Sorted_nil
                 | apply HdRel_cons | apply HdRel_nil]; lia.
  - vm_compute. discriminate.
Defined.

(** X2. [primeFactorize n] is the one-element list [[n]] exactly when
    [n] is a prime not above [MAX_SAFE_INTEGER]. *)
Theorem primeFactorize_singleton_iff_prime (n : Z) :
  primeFactorize n = Some [n] <-> Z.prime n /\ n <= MAX_SAFE_INTEGER.
Proof.
  split.
  - intros Hrun.
    destruct (Z.lt_ge_cases n 2) as [Hlt|Hge].
    { rewrite primeFactorize_outside in Hrun by auto. discriminate. }
    destruct (Z.lt_ge_cases MAX_SAFE_INTEGER n) as [Hgt|Hle].
    { rewrite primeFactorize_outside in Hrun by auto. discriminate. }
    destruct (primeFactorize_domain n) as (l & Hl & _ & Hp & _); [lia|].
    rewrite Hrun in Hl. injection Hl as <-.
    inversion Hp; subst. now split.
  - intros [Hp Hmax].
    replace n with (product [n]) at 1 by (simpl; lia).
    apply primeFactorize_canonical.
    + constructor; [assumption | constructor].
    + repeat constructor.
    + simpl; lia.
Qed.

Lemma primeFactorize_singleton_iff_prime_witness :
  primeFactorize 2 = Some [2].
Proof.
  apply (proj2 (primeFactorize_singleton_iff_prime 2)).
  split; [exact Z.prime_2 | vm_compute; discriminate].
Defined.

(** X3. The factors of a product are the factors of the two operands
    together: for [a, b >= 1] with [a * b <= MAX_SAFE_INTEGER] the result
    on [a * b] is a permutation of the results on [a] and on [b]
    concatenated. *)
Theorem primeFactorize_mul (a b : Z) :
  1 <= a -> 1 <= b -> a * b <= MAX_SAFE_INTEGER ->
  exists la lb lab,
    primeFactorize a = Some la /\ primeFactorize b = Some lb
    /\ primeFactorize (a * b) = Some lab
    /\ Permutation lab (la ++ lb).
Proof.
  intros Ha Hb Hab.
  assert (Hfac : forall n, 1 <= n <= MAX_SAFE_INTEGER ->
            exists l, primeFactorize n = Some l /\ product l = n /\ Forall Z.prime l).
  { intros n Hn. destruct (Z.eq_dec n 1) as [->|].
    - exists []. repeat split; constructor.
    - destruct (primeFactorize_domain n) as (l & ? & ? & ? & _); [lia|].
      exists l; auto. }
  destruct (Hfac a) as (la & Hla & Pa & Fa); [nia|].
  destruct (Hfac b) as (lb & Hlb & Pb & Fb); [nia|].
  destruct (Hfac (a * b)) as (lab & Hlab & Pab & Fab); [nia|].
  exists la, lb, lab. repeat split; try assumption.
  apply prime_lists_permutation; [assumption | apply Forall_app; now split |].
  rewrite product_app. congruence.
Qed.

Lemma primeFactorize_mul_witness :
  exists la lb lab,
    primeFactorize 12 = Some la /\ primeFactorize 10 = Some lb
    /\ primeFactorize (12 * 10) = Some lab
    /\ Permutation lab (la ++ lb).
Proof. apply primeFactorize_mul; lia || (vm_compute; discriminate). Defined.





(** *** [primeFactorize] outside the integers of its domain *)



(** X6. On the numbers that are not integers at all: [primeFactorize]
    returns the empty list on [NaN] (which passes both guards, fails every
    loop test and the final [n > 1]) and on both infinities (stopped by the
    guards). *)
Theorem primeFactorize_f64_not_a_number (fuel : nat) :
  primeFactorize_f64 (S fuel) S754_nan = Some []
  /\ primeFactorize_f64 fuel (S754_infinity false) = Some []
  /\ primeFactorize_f64 fuel (S754_infinity true) = Some [].
Proof.
  repeat split.
Qed.

(** *** [groupFactors]: groups are the maximal runs *)

Lemma runs_maximal_snoc (grouped : list Group) (g : Group) :
  runs_maximal grouped -> last_prime_differs grouped (prime g) ->
  runs_maximal (grouped ++ [g]).
Proof.
  unfold last_prime_differs.
  induction grouped as [|a [|b rest] IH]; intros Hm Hl.
  - exact I.
  - simpl in *. auto.
  - destruct Hm as [Hab Hm]. split; [exact Hab|].
    apply IH; [exact Hm|].
    simpl in Hl |- *. destruct (rev rest ++ [b]) eqn:E.
    + destruct (rev rest); discriminate.
    + simpl in Hl. exact Hl.
Qed.

Lemma last_prime_differs_snoc (grouped : list Group) (g : Group) (x : Z) :
  prime g <> x -> last_prime_differs (grouped ++ [g]) x.
Proof. intros Hx. unfold last_prime_differs. rewrite rev_app_distr. exact Hx. Qed.

Lemma group_loop_maximal (rest : list Z) :
  forall grouped cur e,
    runs_maximal grouped -> last_prime_differs grouped cur ->
    runs_maximal (close_group (fold_left group_elem rest (grouped, cur, e))).
Proof.
  induction rest as [|x rest IH]; intros grouped cur e Hm Hl.
  - simpl. now apply runs_maximal_snoc.
  - simpl. destruct (Z.eqb_spec x cur) as [->|Hne].
    + now apply IH.
    + apply IH.
      * now apply runs_maximal_snoc.
      * apply last_prime_differs_snoc. simpl. congruence.
Qed.



Lemma group_loop_repeat (p : Z) (k : nat) :
  forall grouped e,
    fold_left group_elem (repeat p k) (grouped, p, e) = (grouped, p, e + Z.of_nat k).
Proof.
  induction k as [|k IH]; intros grouped e.
  - simpl. f_equal. lia.
  - cbn [repeat fold_left group_elem]. rewrite Z.eqb_refl, IH. f_equal. lia.
Qed.

Lemma group_loop_expand_inv (gs : list Group) :
  forall grouped cur e,
    Forall (fun g => 1 <= exponent g) gs ->
    runs_maximal gs ->
    match gs with g :: _ => prime g <> cur | [] => True end ->
    close_group (fold_left group_elem (expand gs) (grouped, cur, e))
    = grouped ++ {| prime := cur; exponent := e |} :: gs.
Proof.
  induction gs as [|[p k] gs IH]; intros grouped cur e Hexp Hm Hhd.
  - reflexivity.
  - inversion Hexp as [|? ? Hk Hexp']; subst. simpl in Hk, Hhd.
    change (expand ({| prime := p; exponent := k |} :: gs))
      with (repeat p (Z.to_nat k) ++ expand gs).
    destruct (Z.to_nat k) as [|k'] eqn:Ek; [lia|].
    cbn [repeat app fold_left group_elem].
    destruct (Z.eqb_spec p cur) as [Heq|_]; [congruence|].
    rewrite fold_left_app, group_loop_repeat.
    rewrite IH.
    + rewrite <- app_assoc. cbn [app]. repeat f_equal. lia.
    + assumption.
    + destruct gs; [exact I | apply Hm].
    + destruct gs as [|g gs]; [exact I|]. destruct Hm as [Hm _]. simpl in Hm. congruence.
Qed.

(** X8. [groupFactors] undoes [expand] on every list of groups with
    exponents at least 1 and different neighbouring primes; with the
    converse round trip, lists and such group lists correspond one to
    one. *)
Theorem groupFactors_expand_inverse (grouped : list Group) :
  Forall (fun g => 1 <= exponent g) grouped -> runs_maximal grouped ->
  groupFactors (expand grouped) = grouped.
Proof.
  intros Hexp Hm. destruct grouped as [|[p k] gs]; [reflexivity|].
  inversion Hexp as [|? ? Hk Hexp']; subst. simpl in Hk.
  change (expand ({| prime := p; exponent := k |} :: gs))
    with (repeat p (Z.to_nat k) ++ expand gs).
  destruct (Z.to_nat k) as [|k'] eqn:Ek; [lia|].
  cbn [repeat app]. rewrite groupFactors_cons.
  rewrite fold_left_app, group_loop_repeat, group_loop_expand_inv.
  - cbn [app]. repeat f_equal. lia.
  - assumption.
  - destruct gs; [exact I | apply Hm].
  - destruct gs as [|g gs]; [exact I|]. destruct Hm as [Hm _]. simpl in Hm. congruence.
Qed.

Lemma groupFactors_expand_inverse_witness :
  groupFactors (expand [{| prime := 2; exponent := 3 |};
                        {| prime := 7; exponent := 1 |};
                        {| prime := 2; exponent := 2 |}])
  = [{| prime := 2; exponent := 3 |};
     {| prime := 7; exponent := 1 |};
     {| prime := 2; exponent := 2 |}].
Proof.
  apply groupFactors_expand_inverse.
  - repeat apply Forall_cons; simpl; try lia. apply Forall_nil.
  - simpl. repeat split; lia.
Defined.

Lemma groups_value_expand (gs : list Group) :
  Forall (fun g => 1 <= exponent g) gs -> groups_value gs = product (expand gs).
Proof.
  induction 1 as [|g gs Hg _ IH]; [reflexivity|].
  change (expand (g :: gs)) with (repeat (prime g) (Z.to_nat (exponent g)) ++ expand gs).
  rewrite product_app, product_repeat, Z2Nat.id by lia.
  simpl. now rewrite IH.
Qed.

Lemma sorted_runs_increasing (gs : list Group) :
  Forall (fun g => 1 <= exponent g) gs -> runs_maximal gs ->
  StronglySorted Z.le (expand gs) ->
  Sorted Z.lt (map prime gs).
Proof.
  induction gs as [|g gs IH]; intros Hexp Hm Hs; [constructor|].
  inversion Hexp as [|? ? Hg Hexp']; subst.
  change (expand (g :: gs)) with (repeat (prime g) (Z.to_nat (exponent g)) ++ expand gs) in Hs.
  destruct (Z.to_nat (exponent g)) as [|k] eqn:Ek; [lia|].
  cbn [repeat app] in Hs. inversion Hs as [|? ? Hs' Hall]; subst.
  assert (Hs'' : StronglySorted Z.le (expand gs)).
  { clear -Hs'. induction k as [|k IHk]; [exact Hs'|].
    apply IHk. cbn [repeat app] in Hs'. now inversion Hs'. }
  simpl. constructor.
  - apply IH; [assumption | destruct gs; [exact I | apply Hm] | assumption].
  - destruct gs as [|g' gs]; [constructor|]. simpl. constructor.
    destruct Hm as [Hne _].
    inversion Hexp' as [|? ? Hg' _]; subst.
    assert (Hin : In (prime g') (repeat (prime g) k ++ expand (g' :: gs))).
    { apply in_or_app. right.
      change (expand (g' :: gs))
        with (repeat (prime g') (Z.to_nat (exponent g')) ++ expand gs).
      destruct (Z.to_nat (exponent g')) eqn:E; [lia|]. now left. }
    rewrite Forall_forall in Hall. specialize (Hall _ Hin). lia.
Qed.

(** X9. For [n] in the domain, the groups of the factors of [n] are
    the prime-power decomposition of [n]: the product of the
    [prime ^ exponent] is [n], every [prime] is prime with exponent at
    least 1, and the primes are strictly increasing (each prime has one
    group). *)
Theorem groupFactors_prime_powers (n : Z) :
  2 <= n <= MAX_SAFE_INTEGER ->
  exists l,
    primeFactorize n = Some l
    /\ groups_value (groupFactors l) = n
    /\ Forall (fun g => Z.prime (prime g) /\ 1 <= exponent g) (groupFactors l)
    /\ StronglySorted Z.lt (map prime (groupFactors l)).
Proof.
  intros Hn.
  destruct (primeFactorize_fuel_correct (fuel_for n) n Hn (le_n _))
    as (l & Hrun & Hprod & Hp & Hs).
  exists l. split; [exact Hrun|].
  pose proof (groupFactors_exponents l) as Hexp.
  pose proof (expand_groupFactors l) as Hround.
  split; [|split].
  - rewrite groups_value_expand by assumption. now rewrite Hround.
  - rewrite Forall_forall in Hexp, Hp |- *. intros g Hg.
    split; [|now apply Hexp]. apply Hp. rewrite <- Hround.
    unfold expand. apply in_flat_map. exists g. split; [exact Hg|].
    specialize (Hexp g Hg). simpl in Hexp.
    destruct (Z.to_nat (exponent g)) eqn:E; [lia|]. now left.
  - apply Sorted_StronglySorted; [intros x y z; apply Z.lt_trans|].
    apply sorted_runs_increasing; [assumption | | now rewrite Hround].
    destruct l as [|f0 rest]; [exact I|].
    rewrite groupFactors_cons. apply group_loop_maximal; exact I.
Qed.

Lemma groupFactors_prime_powers_witness :
  exists l,
    primeFactorize 360 = Some l
    /\ groups_value (groupFactors l) = 360
    /\ Forall (fun g => Z.prime (prime g) /\ 1 <= exponent g) (groupFactors l)
    /\ StronglySorted Z.lt (map prime (groupFactors l)).
Proof. apply groupFactors_prime_powers. vm_compute. split; discriminate. Defined.

(** X10. A prime power [p ^ k] in the domain is factorized into [k]
    copies of [p], grouped into the single group [(p, k)], and displayed as
    [p] when [k = 1] and as [p^k] otherwise. *)
Theorem prime_power_pipeline (p k : Z) :
  Z.prime p -> 1 <= k -> p ^ k <= MAX_SAFE_INTEGER ->
  primeFactorize (p ^ k) = Some (repeat p (Z.to_nat k))
  /\ groupFactors (repeat p (Z.to_nat k)) = [{| prime := p; exponent := k |}]
  /\ formatFactorization (groupFactors (repeat p (Z.to_nat k)))
     = if k =? 1 then number_to_string p
       else (number_to_string p ++ "^" ++ number_to_string k)%string.
Proof.
  intros Hp Hk Hmax.
  assert (Hg : groupFactors (repeat p (Z.to_nat k)) = [{| prime := p; exponent := k |}]).
  { destruct (Z.to_nat k) as [|k'] eqn:Ek; [lia|].
    cbn [repeat]. rewrite groupFactors_cons, group_loop_repeat.
    cbn [close_group app]. repeat f_equal. lia. }
  split; [|split; [exact Hg|]].
  - rewrite <- (Z2Nat.id k) at 1 by lia. rewrite <- product_repeat.
    apply primeFactorize_canonical.
    + apply Forall_forall. intros x Hx. apply repeat_spec in Hx. now subst.
    + apply StronglySorted_repeat.
    + rewrite product_repeat, Z2Nat.id by lia. exact Hmax.
  - rewrite Hg. unfold formatFactorization, render_group. cbn.
    destruct (Z.eqb_spec k 1) as [->|Hne]; [reflexivity|].
    destruct (Z.ltb_spec 1 k); [reflexivity | lia].
Qed.

Lemma prime_power_pipeline_witness :
  primeFactorize (2 ^ 10) = Some (repeat 2 (Z.to_nat 10))
  /\ groupFactors (repeat 2 (Z.to_nat 10)) = [{| prime := 2; exponent := 10 |}]
  /\ formatFactorization (groupFactors (repeat 2 (Z.to_nat 10)))
     = if 10 =? 1 then number_to_string 2
       else (number_to_string 2 ++ "^" ++ number_to_string 10)%string.
Proof.
  apply prime_power_pipeline; [exact Z.prime_2 | lia | vm_compute; discriminate].
Defined.

(** *** The rendered result *)

Lemma primeFactorize_nonempty (n : Z) (l : list Z) :
  primeFactorize n = Some l -> (l <> [] <-> 2 <= n <= MAX_SAFE_INTEGER).
Proof.
  intros Hrun. split.
  - intros Hl.
    destruct (Z.lt_ge_cases n 2) as [Hlt|Hge].
    { rewrite primeFactorize_outside in Hrun by auto. congruence. }
    destruct (Z.lt_ge_cases MAX_SAFE_INTEGER n) as [Hgt|Hle].
    { rewrite primeFactorize_outside in Hrun by auto. congruence. }
    lia.
  - intros Hn. destruct (primeFactorize_domain n Hn) as (l' & Hl' & Hprod & _).
    rewrite Hrun in Hl'. injection Hl' as <-. intros ->. simpl in Hprod. lia.
Qed.

Lemma append_nil_r (s : string) : (s ++ "")%string = s.
Proof. induction s as [|c s IH]; simpl; [reflexivity | now rewrite IH]. Qed.

Lemma append_assoc (s1 s2 s3 : string) :
  ((s1 ++ s2) ++ s3)%string = (s1 ++ s2 ++ s3)%string.
Proof. induction s1 as [|c s1 IH]; simpl; [reflexivity | now rewrite IH]. Qed.

Lemma grouped_text_from (l : list Group) :
  forall (k total : nat),
    total = (k + List.length l)%nat ->
    String.concat ""
      (map (fun p : Group * nat =>
              let '(g, index) := p in
              String.append
                (if 1 <? exponent g
                 then (number_to_string (prime g) ++ "^"
                       ++ number_to_string (exponent g))%string
                 else number_to_string (prime g))
                (if Z.of_nat index <? Z.of_nat total - 1
                 then " × "%string else ""%string))
           (combine l (seq k (List.length l))))
    = formatFactorization l.
Proof.
  induction l as [|g [|g' rest] IH]; intros k total Ht.
  - reflexivity.
  - cbn [List.length seq combine map String.concat formatFactorization].
    destruct (Z.ltb_spec (Z.of_nat k) (Z.of_nat total - 1)); [simpl in Ht; lia|].
    apply append_nil_r.
  - rewrite formatFactorization_cons.
    change (List.length (g :: g' :: rest)) with (S (List.length (g' :: rest))).
    cbn [seq combine map].
    specialize (IH (S k) total ltac:(simpl in *; lia)).
    cbn [String.concat]. cbn [String.concat] in IH. 
    change (List.length (g' :: rest)) with (S (List.length rest)) in *.
    cbn [seq combine map] in IH |- *.
    rewrite IH.
    destruct (Z.ltb_spec (Z.of_nat k) (Z.of_nat total - 1)); [|simpl in Ht; lia].
    rewrite append_assoc. reflexivity.
Qed.

(** X11. The grouped line of the result panel (lines 210-217), which
    appends the separator to every group but the last by comparing
    indices, shows the same text as the string stored in the history
    (lines 119-121), which joins the rendered groups. *)
Theorem groupedFactorsText_format (grouped : list Group) :
  groupedFactorsText grouped = formatFactorization grouped.
Proof. unfold groupedFactorsText. now apply grouped_text_from. Qed.

(** *** [parseInt] reads back what [toString] prints *)

Lemma digits_value_digit (c : ascii) (k : Z) (acc : option Z) (rest : string) :
  Z.of_nat (nat_of_ascii c) - 48 = k -> 0 <= k <= 9 ->
  digits_value acc (String c rest)
  = digits_value (Some (10 * match acc with Some a => a | None => 0 end + k)) rest.
Proof.
  intros <- Hk. cbn [digits_value].
  destruct (Z.leb_spec 0 (Z.of_nat (nat_of_ascii c) - 48)); [|lia].
  destruct (Z.leb_spec (Z.of_nat (nat_of_ascii c) - 48) 9); [|lia].
  reflexivity.
Qed.

Ltac digit_step :=
  cbn [DecimalString.NilEmpty.string_of_uint Pos.of_uint_acc Pos.of_uint];
  match goal with
  | |- context [digits_value ?acc (String ?c ?rest)] =>
      let v := eval vm_compute in (Z.of_nat (nat_of_ascii c) - 48) in
      rewrite (digits_value_digit c v acc rest eq_refl) by lia
  end.

Lemma digits_value_acc (d : Decimal.uint) :
  forall acc : positive,
    digits_value (Some (Z.pos acc)) (DecimalString.NilEmpty.string_of_uint d)
    = Some (Z.pos (Pos.of_uint_acc d acc)).
Proof.
  induction d; intros acc; [reflexivity | ..];
    digit_step; rewrite <- IHd; do 2 f_equal; lia.
Qed.

Lemma digits_value_zero (d : Decimal.uint) :
  digits_value (Some 0) (DecimalString.NilEmpty.string_of_uint d)
  = Some (Z.of_N (Pos.of_uint d)).
Proof.
  induction d; [reflexivity | digit_step; exact IHd | ..];
    digit_step; apply (digits_value_acc d).
Qed.

Lemma digits_value_start (d : Decimal.uint) :
  d <> Decimal.Nil ->
  digits_value None (DecimalString.NilEmpty.string_of_uint d)
  = Some (Z.of_N (Pos.of_uint d)).
Proof.
  intros Hd. rewrite <- digits_value_zero.
  destruct d; [congruence | ..]; do 2 digit_step; reflexivity.
Qed.

Lemma parseInt_decimal_unsigned (d : Decimal.uint) :
  d <> Decimal.Nil ->
  parseInt_decimal (DecimalString.NilEmpty.string_of_uint d)
  = Num (Z.of_N (Pos.of_uint d))
  /\ parseInt_decimal (String "-" (DecimalString.NilEmpty.string_of_uint d))
     = Num (- Z.of_N (Pos.of_uint d)).
Proof.
  intros Hd. pose proof (digits_value_start d Hd) as Hv.
  unfold parseInt_decimal. split.
  - destruct d; [congruence | ..];
      cbn [DecimalString.NilEmpty.string_of_uint skip_space] in Hv |- *;
      match goal with |- context [is_space ?c] => change (is_space c) with false end;
      cbv iota; rewrite Hv; reflexivity.
  - cbn [skip_space]. change (is_space "-") with false. cbv iota.
    rewrite Hv. reflexivity.
Qed.

Lemma parseInt_decimal_to_string (n : Z) :
  parseInt_decimal (number_to_string n) = Num n.
Proof.
  unfold number_to_string. destruct n as [|p|p]; [reflexivity | |];
    cbn [Z.to_int DecimalString.NilZero.string_of_int];
    pose proof (DecimalPos.Unsigned.to_uint_nonnil p) as Hnil;
    pose proof (DecimalPos.Unsigned.of_to p) as Hval;
    destruct (parseInt_decimal_unsigned (Pos.to_uint p) Hnil) as [Hpos Hneg];
    rewrite Hval in Hpos, Hneg;
    replace (DecimalString.NilZero.string_of_uint (Pos.to_uint p))
      with (DecimalString.NilEmpty.string_of_uint (Pos.to_uint p))
      by (unfold DecimalString.NilZero.string_of_uint;
          destruct (Pos.to_uint p); [congruence | reflexivity ..]);
    assumption.
Qed.

(** *** Handlers and sessions *)

(** What [handleFactorize] does on an input of the domain. *)
Lemma handleFactorize_valid (parseInt : string -> parsed) (s : AppState) (n : Z) :
  parseInt (inputValue s) = Num n -> 2 <= n <= MAX_SAFE_INTEGER ->
  exists l,
    primeFactorize n = Some l /\ l <> []
    /\ handleFactorize parseInt s
       = Some {| inputValue := inputValue s;
                 currentNumber := Some (Num n);
                 factors := l;
                 groupedFactors := groupFactors l;
                 error := None;
                 calculationHistory :=
                   calculationHistory s
                   ++ [{| number := n;
                          factorization := formatFactorization (groupFactors l) |}];
                 darkMode := darkMode s |}.
Proof.
  intros Hparse Hn.
  destruct (primeFactorize_domain n Hn) as (l & Hrun & _).
  exists l. split; [exact Hrun|]. split; [now apply (primeFactorize_nonempty n)|].
  unfold handleFactorize. rewrite Hparse.
  destruct (Z.ltb_spec n 2); [lia|].
  destruct (Z.ltb_spec MAX_SAFE_INTEGER n); [lia|].
  rewrite Hrun. reflexivity.
Qed.

(** What [handleFactorize] does on any other input. *)
Lemma handleFactorize_invalid (parseInt : string -> parsed) (s : AppState) :
  match parseInt (inputValue s) with
  | NaN => True
  | Num n => n < 2 \/ MAX_SAFE_INTEGER < n
  end ->
  exists message,
    message <> ""%string
    /\ handleFactorize parseInt s
       = Some {| inputValue := inputValue s;
                 currentNumber := Some (parseInt (inputValue s));
                 factors := [];
                 groupedFactors := [];
                 error := Some message;
                 calculationHistory := calculationHistory s;
                 darkMode := darkMode s |}.
Proof.
  intros Hbad. unfold handleFactorize.
  destruct (parseInt (inputValue s)) as [|n].
  - eexists. split; [|reflexivity]. discriminate.
  - destruct (Z.ltb_spec n 2).
    + eexists. split; [|reflexivity]. discriminate.
    + destruct (Z.ltb_spec MAX_SAFE_INTEGER n); [|lia].
      eexists. split; [|reflexivity]. discriminate.
Qed.

Lemma handleFactorize_cases (parseInt : string -> parsed) (s : AppState) :
  (exists n, parseInt (inputValue s) = Num n /\ 2 <= n <= MAX_SAFE_INTEGER)
  \/ match parseInt (inputValue s) with
     | NaN => True
     | Num n => n < 2 \/ MAX_SAFE_INTEGER < n
     end.
Proof.
  destruct (parseInt (inputValue s)) as [|n]; [now right|].
  destruct (Z.lt_ge_cases n 2); [right; auto|].
  destruct (Z.lt_ge_cases MAX_SAFE_INTEGER n); [right; auto|].
  left. exists n. split; [reflexivity | lia].
Qed.

Lemma truthy_message (m : string) : m <> ""%string -> truthy (Some m) = true.
Proof.
  intros Hm. simpl. destruct (String.eqb_spec m ""); [contradiction | reflexivity].
Qed.

(** X12. [handleFactorize] always returns, keeps the input text, stores
    the parsed number even when it rejects it, and leaves exactly one of the
    two panels visible: the result panel when the parsed number is in the
    domain, the error panel otherwise, in which case the previous factors
    and groups are cleared. *)
Theorem handleFactorize_panels (parseInt : string -> parsed) (s : AppState) :
  exists s',
    handleFactorize parseInt s = Some s'
    /\ inputValue s' = inputValue s
    /\ currentNumber s' = Some (parseInt (inputValue s))
    /\ showError s' = negb (showResult s')
    /\ (showResult s' = true <->
        exists n, parseInt (inputValue s) = Num n /\ 2 <= n <= MAX_SAFE_INTEGER)
    /\ (showError s' = true -> factors s' = [] /\ groupedFactors s' = []).
Proof.
  destruct (handleFactorize_cases parseInt s) as [(n & Hparse & Hn)|Hbad].
  - destruct (handleFactorize_valid parseInt s n Hparse Hn) as (l & Hrun & Hl & ->).
    eexists. split; [reflexivity|].
    unfold showError, showResult. cbn.
    destruct l as [|f l]; [congruence|]. cbn.
    repeat split; try congruence; try discriminate.
    intros _. now exists n.
  - destruct (handleFactorize_invalid parseInt s Hbad) as (m & Hm & ->).
    eexists. split; [reflexivity|].
    unfold showError, showResult.
    cbn [inputValue currentNumber factors groupedFactors error List.length].
    rewrite (truthy_message m Hm). cbn.
    repeat split; try discriminate.
    intros (n & Hparse & Hn). rewrite Hparse in Hbad. lia.
Qed.

Lemma handleFactorize_panels_witness :
  exists s',
    handleFactorize parseInt_decimal (setInputValue "1" (initialState false)) = Some s'
    /\ showError s' = true /\ showResult s' = false
    /\ factors s' = [] /\ groupedFactors s' = [].
Proof.
  destruct (handleFactorize_panels parseInt_decimal
              (setInputValue "1" (initialState false)))
    as (s' & Hrun & _ & _ & _ & _ & Hclear).
  exists s'. split; [exact Hrun|].
  assert (Hs : Some s' = Some (reject "2以上の整数を入力してください"
                                (setCurrentNumber (Some (Num 1))
                                   (setInputValue "1" (initialState false)))))
    by (rewrite <- Hrun; reflexivity).
  injection Hs as Hs.
  assert (He : showError s' = true) by (rewrite Hs; reflexivity).
  split; [exact He|]. split; [rewrite Hs; reflexivity | exact (Hclear He)].
Defined.

Lemma handle_total (parseInt : string -> parsed) (e : event) (s : AppState) :
  exists s', handle parseInt e s = Some s'.
Proof.
  destruct e; cbn [handle]; try (eexists; reflexivity).
  - destruct (handleFactorize_cases parseInt s) as [(n & Hparse & Hn)|Hbad].
    + destruct (handleFactorize_valid parseInt s n Hparse Hn) as (l & _ & _ & ->).
      eexists; reflexivity.
    + destruct (handleFactorize_invalid parseInt s Hbad) as (m & _ & ->).
      eexists; reflexivity.
  - unfold recalculate. destruct (primeFactorize_total n) as [l ->].
    eexists; reflexivity.
Qed.

Lemma history_remove_In (index : Z) (prev : list HistoryRecord) (r : HistoryRecord) :
  In r (history_remove index prev) -> In r prev.
Proof.
  unfold history_remove, filter_index. intros Hin.
  apply in_map_iff in Hin. destruct Hin as ([r' i] & <- & Hin).
  apply filter_In in Hin. destruct Hin as [Hin _].
  now apply in_combine_l in Hin.
Qed.

Lemma handle_state_ok (parseInt : string -> parsed) (e : event) (s s' : AppState) :
  state_ok s -> handle parseInt e s = Some s' -> state_ok s'.
Proof.
  intros (Hg & He & Hf & Hh) Hstep. destruct e; cbn [handle] in Hstep.
  - injection Hstep as <-. repeat split; assumption.
  - destruct (handleFactorize_cases parseInt s) as [(n & Hparse & Hn)|Hbad].
    + destruct (handleFactorize_valid parseInt s n Hparse Hn) as (l & Hrun & Hl & Heq).
      rewrite Heq in Hstep. injection Hstep as <-.
      unfold state_ok. cbn. repeat split.
      * congruence.
      * intros _. exists n. repeat split; (assumption || lia).
      * apply Forall_app. split; [assumption|]. constructor; [|constructor].
        split; [exact Hn|]. exists l. split; [exact Hrun | reflexivity].
    + destruct (handleFactorize_invalid parseInt s Hbad) as (m & Hm & Heq).
      rewrite Heq in Hstep. injection Hstep as <-.
      unfold state_ok. cbn. repeat split; (congruence || assumption).
  - injection Hstep as <-. unfold state_ok, clearInput. cbn.
    repeat split; (congruence || assumption).
  - injection Hstep as <-. repeat split; assumption.
  - injection Hstep as <-. repeat split; assumption.
  - unfold recalculate in Hstep. destruct (primeFactorize_total n) as [l Hrun].
    rewrite Hrun in Hstep. injection Hstep as <-.
    unfold state_ok. cbn. repeat split.
    + congruence.
    + intros Hl. exists n. split; [reflexivity|].
      split; [now apply (primeFactorize_nonempty n l) | exact Hrun].
    + assumption.
  - injection Hstep as <-. unfold state_ok, removeFromHistory. cbn.
    repeat split; try assumption.
    rewrite Forall_forall in Hh |- *. intros r Hr. apply Hh.
    now apply history_remove_In in Hr.
Qed.

Lemma act_as_handle (parseInt : string -> parsed) (a : action) (s : AppState) :
  act parseInt a s = Some s \/ exists e, act parseInt a s = handle parseInt e s.
Proof.
  destruct a; cbn [act]; try (right; eexists; reflexivity).
  - destruct (nth_error (calculationHistory s) position);
      [right; eexists; reflexivity | now left].
  - destruct (position <? List.length (calculationHistory s))%nat;
      [right; eexists; reflexivity | now left].
Qed.

Lemma initialState_ok (prefersDark : bool) : state_ok (initialState prefersDark).
Proof.
  unfold state_ok. cbn. repeat split; try congruence. constructor.
Qed.

Lemma run_state_ok (parseInt : string -> parsed) (actions : list action) :
  forall s, state_ok s ->
    exists s', run parseInt actions s = Some s' /\ state_ok s'.
Proof.
  induction actions as [|a rest IH]; intros s Hs.
  - exists s. now split.
  - cbn [run]. destruct (act_as_handle parseInt a s) as [Heq|[e Heq]]; rewrite Heq.
    + cbn [bind]. now apply IH.
    + destruct (handle_total parseInt e s) as [s1 H1]. rewrite H1. cbn [bind].
      apply IH. now apply (handle_state_ok parseInt e s).
Qed.

(** X13. Every session, whatever the order of the actions, runs to the
    end, and its state satisfies [state_ok]: the groups are those of the
    stored factors, an error comes with no factors, stored factors are the
    factorization of the current number, which is in the domain, and every
    history record holds a number of the domain with the display string of
    its factorization. *)
Theorem session_invariant (parseInt : string -> parsed) (actions : list action)
  (prefersDark : bool) :
  exists s,
    run parseInt actions (initialState prefersDark) = Some s
    /\ state_ok s.
Proof. apply run_state_ok, initialState_ok. Qed.

Lemma reachable_state_ok (parseInt : string -> parsed) (actions : list action)
  (prefersDark : bool) (s : AppState) :
  run parseInt actions (initialState prefersDark) = Some s -> state_ok s.
Proof.
  intros Hrun.
  destruct (run_state_ok parseInt actions _ (initialState_ok prefersDark))
    as (s' & Hrun' & Hok).
  congruence.
Qed.

Lemma showResult_factors (s : AppState) :
  showResult s = true -> factors s <> [].
Proof.
  unfold showResult. intros H Hnil. rewrite Hnil in H.
  cbn in H. now rewrite andb_false_r in H.
Qed.


(** X14. Whenever the result panel is visible in a session, the
    equation it displays is true: the current number is an integer of the
    domain, it is the product of the displayed factors, which are prime,
    and of the displayed prime powers, and the groups expand to the
    factors. *)
Theorem displayed_equation_holds (parseInt : string -> parsed)
  (actions : list action) (prefersDark : bool) (s : AppState) :
  run parseInt actions (initialState prefersDark) = Some s ->
  showResult s = true ->
  exists n,
    currentNumber s = Some (Num n)
    /\ 2 <= n <= MAX_SAFE_INTEGER
    /\ product (factors s) = n
    /\ Forall Z.prime (factors s)
    /\ groups_value (groupedFactors s) = n
    /\ expand (groupedFactors s) = factors s.
Proof.
  intros Hrun Hshow.
  destruct (reachable_state_ok _ _ _ _ Hrun) as (Hg & _ & Hf & _).
  destruct (Hf (showResult_factors s Hshow)) as (n & Hcur & Hn & Hfac).
  destruct (primeFactorize_domain n Hn) as (l & Hl & Hprod & Hp & _).
  assert (l = factors s) by congruence. subst l.
  exists n. repeat split; try assumption; try lia.
  - rewrite Hg, groups_value_expand by apply groupFactors_exponents.
    now rewrite expand_groupFactors.
  - rewrite Hg. apply expand_groupFactors.
Qed.

Lemma displayed_equation_holds_witness :
  exists n,
    Some (Num 12) = Some (Num n)
    /\ 2 <= n <= MAX_SAFE_INTEGER
    /\ product [2; 2; 3] = n
    /\ Forall Z.prime [2; 2; 3]
    /\ groups_value [{| prime := 2; exponent := 2 |}; {| prime := 3; exponent := 1 |}] = n
    /\ expand [{| prime := 2; exponent := 2 |}; {| prime := 3; exponent := 1 |}]
       = [2; 2; 3].
Proof.
  exact (displayed_equation_holds parseInt_decimal [TypeText "12"; PressCalculate] false
           {| inputValue := "12";
              currentNumber := Some (Num 12);
              factors := [2; 2; 3];
              groupedFactors := [{| prime := 2; exponent := 2 |};
                                 {| prime := 3; exponent := 1 |}];
              error := None;
              calculationHistory := [{| number := 12; factorization := "2^2 × 3" |}];
              darkMode := false |}
           eq_refl eq_refl).
Defined.

(** X15. Pressing a row of the history in a session shows the result
    panel for that row's number, without an error, puts the number's
    decimal text in the input field, displays groups whose text is the
    string stored in the row, and leaves the history as it is. *)
Theorem press_history_row (parseInt : string -> parsed)
  (actions : list action) (prefersDark : bool) (s : AppState)
  (position : nat) (item : HistoryRecord) :
  run parseInt actions (initialState prefersDark) = Some s ->
  nth_error (calculationHistory s) position = Some item ->
  exists s',
    act parseInt (PressItem position) s = Some s'
    /\ showResult s' = true /\ showError s' = false
    /\ currentNumber s' = Some (Num (number item))
    /\ inputValue s' = number_to_string (number item)
    /\ formatFactorization (groupedFactors s') = factorization item
    /\ calculationHistory s' = calculationHistory s.
Proof.
  intros Hrun Hnth.
  destruct (reachable_state_ok _ _ _ _ Hrun) as (_ & _ & _ & Hh).
  rewrite Forall_forall in Hh.
  destruct (Hh item (nth_error_In _ _ Hnth)) as (Hn & l & Hl & Hstr).
  assert (Hne : l <> []) by now apply (primeFactorize_nonempty (number item)).
  cbn [act handle]. rewrite Hnth. unfold recalculate. rewrite Hl.
  eexists. split; [reflexivity|].
  unfold showResult, showError. cbn.
  destruct l as [|f l]; [congruence|]. cbn. repeat split. now symmetry.
Qed.

Lemma press_history_row_witness :
  exists s',
    act parseInt_decimal (PressItem 0)
      {| inputValue := "";
         currentNumber := Some (Num 12);
         factors := [2; 2; 3];
         groupedFactors := [{| prime := 2; exponent := 2 |};
                            {| prime := 3; exponent := 1 |}];
         error := None;
         calculationHistory := [{| number := 12; factorization := "2^2 × 3" |}];
         darkMode := false |} = Some s'
    /\ showResult s' = true /\ showError s' = false
    /\ currentNumber s' = Some (Num 12)
    /\ inputValue s' = number_to_string 12
    /\ formatFactorization (groupedFactors s') = "2^2 × 3"%string
    /\ calculationHistory s' = [{| number := 12; factorization := "2^2 × 3" |}].
Proof.
  exact (press_history_row parseInt_decimal
           [TypeText "12"; PressCalculate; PressClear] false _ 0%nat
           {| number := 12; factorization := "2^2 × 3" |} eq_refl eq_refl).
Defined.

(** X16. The history keeps duplicates: pressing "calculate" twice on
    the same valid input appends the same record twice, the second press
    leaving factors and groups as they are. *)
Theorem handleFactorize_twice (parseInt : string -> parsed) (s : AppState) (n : Z) :
  parseInt (inputValue s) = Num n -> 2 <= n <= MAX_SAFE_INTEGER ->
  exists s1 s2 item,
    handleFactorize parseInt s = Some s1
    /\ handleFactorize parseInt s1 = Some s2
    /\ number item = n
    /\ calculationHistory s2 = calculationHistory s ++ [item; item]
    /\ factors s2 = factors s1 /\ groupedFactors s2 = groupedFactors s1.
Proof.
  intros Hparse Hn.
  destruct (handleFactorize_valid parseInt s n Hparse Hn) as (l & Hrun & _ & H1).
  rewrite H1.
  match goal with |- context [Some ?s1 = Some _] => set (st := s1) end.
  destruct (handleFactorize_valid parseInt st n Hparse Hn) as (l' & Hrun' & _ & H2).
  assert (l' = l) by congruence. subst l'.
  exists st. rewrite H2. eexists.
  exists {| number := n; factorization := formatFactorization (groupFactors l) |}.
  split; [reflexivity|]. split; [reflexivity|].
  cbn. split; [reflexivity|]. rewrite <- app_assoc. repeat split.
Qed.

Lemma handleFactorize_twice_witness :
  exists s1 s2 item,
    handleFactorize parseInt_decimal (setInputValue "12" (initialState false)) = Some s1
    /\ handleFactorize parseInt_decimal s1 = Some s2
    /\ number item = 12
    /\ calculationHistory s2 = [] ++ [item; item]
    /\ factors s2 = factors s1 /\ groupedFactors s2 = groupedFactors s1.
Proof.
  apply (handleFactorize_twice parseInt_decimal
           (setInputValue "12" (initialState false)) 12).
  - reflexivity.
  - vm_compute; split; discriminate.
Defined.

(** *** The history list, the panels and the colour scheme *)

Lemma nth_error_history_remove (index : Z) (prev : list HistoryRecord) (k : nat) :
  0 <= index ->
  nth_error (history_remove index prev) k
  = if Z.of_nat k <? index then nth_error prev k else nth_error prev (S k).
Proof.
  intros Hi.
  destruct (Z.lt_ge_cases index (Z.of_nat (List.length prev))) as [Hin|Hout].
  - rewrite history_remove_in_range by lia.
    destruct (Z.ltb_spec (Z.of_nat k) index).
    + rewrite nth_error_app1 by (rewrite length_firstn; lia).
      rewrite nth_error_firstn.
      destruct (Nat.ltb_spec k (Z.to_nat index)); [reflexivity | lia].
    + rewrite nth_error_app2 by (rewrite length_firstn; lia).
      rewrite length_firstn, nth_error_skipn. f_equal. lia.
  - rewrite history_remove_out_of_range by lia.
    destruct (Z.ltb_spec (Z.of_nat k) index); [reflexivity|].
    transitivity (@None HistoryRecord); [|symmetry];
      apply nth_error_None; lia.
Qed.

(** X17. Removing at the position of a record just appended restores
    the history, and removing at an earlier position commutes with the
    append. *)
Theorem history_append_remove (n : Z) (text : string) (prev : list HistoryRecord) :
  history_remove (Z.of_nat (List.length prev)) (history_append n text prev) = prev
  /\ forall index,
       0 <= index < Z.of_nat (List.length prev) ->
       history_remove index (history_append n text prev)
       = history_append n text (history_remove index prev).
Proof.
  unfold history_append. split.
  - rewrite history_remove_in_range by (rewrite length_app; simpl; lia).
    rewrite Nat2Z.id.
    rewrite firstn_app, Nat.sub_diag, firstn_all, skipn_app, skipn_all2 by lia.
    replace (S (List.length prev) - List.length prev)%nat with 1%nat by lia.
    cbn. now rewrite !app_nil_r.
  - intros index Hi.
    rewrite !history_remove_in_range by (try rewrite length_app; simpl; lia).
    rewrite firstn_app, skipn_app.
    replace (Z.to_nat index - List.length prev)%nat with 0%nat by lia.
    replace (S (Z.to_nat index) - List.length prev)%nat with 0%nat by lia.
    cbn. now rewrite app_nil_r, app_assoc.
Qed.

Lemma history_append_remove_witness :
  history_remove 0 (history_append 17 "17" [{| number := 12; factorization := "2^2 × 3" |}])
  = history_append 17 "17"
      (history_remove 0 [{| number := 12; factorization := "2^2 × 3" |}]).
Proof.
  apply (proj2 (history_append_remove 17 "17"
                  [{| number := 12; factorization := "2^2 × 3" |}]) 0).
  simpl. lia.
Defined.

(** X18. Removals commute up to the shift of positions: for
    [0 <= i < j], removing [j] then [i] gives the same state as removing
    [i] then [j - 1]. *)
Theorem removeFromHistory_commute (i j : Z) (s : AppState) :
  0 <= i < j ->
  removeFromHistory i (removeFromHistory j s)
  = removeFromHistory (j - 1) (removeFromHistory i s).
Proof.
  intros Hij. unfold removeFromHistory, setCalculationHistory.
  cbn [inputValue currentNumber factors groupedFactors error calculationHistory
       darkMode].
  f_equal.
  apply nth_error_ext. intros k.
  rewrite !nth_error_history_remove by lia.
  repeat match goal with
         | |- context [?a <? ?b] => destruct (Z.ltb_spec a b)
         end; try lia; reflexivity.
Qed.

Lemma removeFromHistory_commute_witness :
  let s := setCalculationHistory
             (fun _ => [{| number := 12; factorization := "2^2 × 3" |};
                        {| number := 17; factorization := "17" |};
                        {| number := 8; factorization := "2^3" |}])
             (initialState false) in
  removeFromHistory 0 (removeFromHistory 2 s)
  = removeFromHistory (2 - 1) (removeFromHistory 0 s).
Proof. cbv zeta. apply removeFromHistory_commute. lia. Defined.



(** X20. In a session, pressing a row of the history and then
    "calculate" appends a copy of that row's record: [recalculate] leaves
    the decimal text of the number in the input field, which
    [handleFactorize] parses back to the same number. *)
Theorem press_row_then_calculate (actions : list action) (prefersDark : bool)
  (s : AppState) (position : nat) (item : HistoryRecord) :
  run parseInt_decimal actions (initialState prefersDark) = Some s ->
  nth_error (calculationHistory s) position = Some item ->
  exists s',
    run parseInt_decimal [PressItem position; PressCalculate] s = Some s'
    /\ calculationHistory s' = calculationHistory s ++ [item].
Proof.
  intros Hrun Hnth.
  destruct (reachable_state_ok _ _ _ _ Hrun) as (_ & _ & _ & Hh).
  rewrite Forall_forall in Hh.
  destruct (Hh item (nth_error_In _ _ Hnth)) as (Hn & l & Hl & Hstr).
  cbn [run act handle]. rewrite Hnth. unfold recalculate. rewrite Hl. cbn [bind].
  match goal with |- context [handleFactorize _ ?s1] => set (st := s1) end.
  destruct (handleFactorize_valid parseInt_decimal st (number item))
    as (l' & Hl' & _ & Hstep).
  { apply parseInt_decimal_to_string. }
  { exact Hn. }
  assert (l' = l) by congruence. subst l'.
  rewrite Hstep. cbn [bind]. eexists. split; [reflexivity|].
  cbn. rewrite <- Hstr. now destruct item.
Qed.

Lemma press_row_then_calculate_witness :
  exists s',
    run parseInt_decimal [PressItem 0; PressCalculate]
      {| inputValue := "";
         currentNumber := Some (Num 12);
         factors := [2; 2; 3];
         groupedFactors := [{| prime := 2; exponent := 2 |};
                            {| prime := 3; exponent := 1 |}];
         error := None;
         calculationHistory := [{| number := 12; factorization := "2^2 × 3" |}];
         darkMode := false |} = Some s'
    /\ calculationHistory s'
       = [{| number := 12; factorization := "2^2 × 3" |}]
         ++ [{| number := 12; factorization := "2^2 × 3" |}].
Proof.
  exact (press_row_then_calculate [TypeText "12"; PressCalculate; PressClear] false _
           0%nat {| number := 12; factorization := "2^2 × 3" |} eq_refl eq_refl).
Defined.


(** X21. The colour scheme is independent of the rest: every handler
    returns, only the toggle and the system listener change [darkMode],
    they change nothing else, and toggling twice restores the state. *)
Theorem darkMode_frame (parseInt : string -> parsed) (e : event) (s : AppState) :
  exists s',
    handle parseInt e s = Some s'
    /\ match e with
       | ClickToggleDarkMode =>
           darkMode s' = negb (darkMode s) /\ setDarkMode (darkMode s) s' = s
           /\ handle parseInt e s' = Some s
       | ColorSchemeChanged dark =>
           darkMode s' = dark /\ setDarkMode (darkMode s) s' = s
       | _ => darkMode s' = darkMode s
       end.
Proof.
  destruct (handle_total parseInt e s) as [s' Hstep]. exists s'.
  split; [exact Hstep|].
  destruct e; cbn [handle] in Hstep |- *.
  - now injection Hstep as <-.
  - unfold handleFactorize in Hstep.
    destruct (parseInt (inputValue s)) as [|n]; [now injection Hstep as <-|].
    destruct (n <? 2); [now injection Hstep as <-|].
    destruct (MAX_SAFE_INTEGER <? n); [now injection Hstep as <-|].
    destruct (primeFactorize n); [|discriminate]. now injection Hstep as <-.
  - now injection Hstep as <-.
  - injection Hstep as <-. destruct s as [? ? ? ? ? ? dm].
    unfold toggleDarkMode, setDarkMode. cbn. now rewrite negb_involutive.
  - injection Hstep as <-. now destruct s.
  - unfold recalculate in Hstep.
    destruct (primeFactorize n); [|discriminate]. now injection Hstep as <-.
  - now injection Hstep as <-.
Qed.
